(** * The SegmentTimeline representation index of the DASH parser

    A shallow embedding of [src/parsers/manifest/dash/indexes/timeline.ts]
    and the properties its specification states about it.

    Conventions of the embedding.
    - A JavaScript [number] that holds a resolved time (index time, seconds,
      milliseconds of [performance.now]) is a rational [Q], and every
      addition, subtraction, multiplication and division the code makes is
      rounded to the nearest double ([round64], ties to even) as the
      engine rounds it; comparisons and [Math.floor] are exact on doubles.
      The numbers a function receives are meant to be doubles: a decimal
      of the source that is not one, such as [0.1], is [round64 (1 # 10)].
      Overflow to an infinity and division by zero are outside the model.
      The conversions between seconds and index time, whose code is not
      part of these sources, are taken exact.
    - The attributes of a parsed [S] element may be absent or [NaN]; they
      are [option number], where [number] has a [NaN] constructor, because
      the normalizer tests for both.
    - Array indices and lengths are [Z]; reading an array outside its range
      gives [undefined] ([None]), reading a property of [undefined] throws.
    - Methods pass the object explicitly: a method takes [this] and returns
      its completion together with the object it leaves behind. *)

From Stdlib Require Import ZArith QArith Qround Qabs Lqa Lia List Ascii String Bool.
Import ListNotations.

Local Open Scope Z_scope.

(** ** JavaScript values, arrays and completions *)

Module JS.

(** A [number] as far as the normalizer distinguishes it. *)
Inductive number : Type :=
| NaN
| Num (q : Q).

Definition isNaN (x : number) : bool :=
  match x with
  | NaN => true
  | Num _ => false
  end.

(** [x == null] on an optional property. *)
Definition isNullish {A : Type} (x : option A) : bool :=
  match x with
  | None => true
  | Some _ => false
  end.

(** [x != null && !isNaN(x)]. *)
Definition isKnown (x : option number) : bool :=
  match x with
  | Some y => negb (isNaN y)
  | None => false
  end.

(** The rational held by a number that passed [isKnown]. *)
Definition valueOf (x : option number) : Q :=
  match x with
  | Some (Num q) => q
  | _ => 0%Q
  end.

(** [a[i]]: [undefined] outside [0 .. a.length - 1]. *)
Definition array_get {A : Type} (a : list A) (i : Z) : option A :=
  if i <? 0 then None else nth_error a (Z.to_nat i).

(** [a.length]. *)
Definition array_length {A : Type} (a : list A) : Z :=
  Z.of_nat (List.length a).

(** [x >>> 1]: the operand is taken modulo 2^32 and shifted right. *)
Definition ushr1 (x : Z) : Z :=
  Z.shiftr (x mod 2 ^ 32) 1.

(** How an evaluation ends. [Diverge] stands for a loop that does not
    stop (the loop of the model ran out of fuel). *)
Inductive completion (A : Type) : Type :=
| Normal (a : A)
| TypeError
| Diverge.
Arguments Normal {A} a.
Arguments TypeError {A}.
Arguments Diverge {A}.

(** An evaluation that reads the timeline: its completion and the indices
    it read, in order. *)
Record Eff (A : Type) : Type := mkEff {
  outcome : completion A;
  reads : list Z
}.
Arguments mkEff {A} outcome reads.
Arguments outcome {A} e.
Arguments reads {A} e.

Definition ret {A : Type} (a : A) : Eff A :=
  mkEff (Normal a) [].

Definition bind {A B : Type} (m : Eff A) (k : A -> Eff B) : Eff B :=
  match outcome m with
  | Normal a => let r := k a in mkEff (outcome r) (reads m ++ reads r)
  | TypeError => mkEff TypeError (reads m)
  | Diverge => mkEff Diverge (reads m)
  end.

(** [a[i]], recorded. *)
Definition read {A : Type} (a : list A) (i : Z) : Eff (option A) :=
  mkEff (Normal (array_get a i)) [i].

(** [x.prop] for an [x] that may be [undefined]. *)
Definition deref {A : Type} (x : option A) : Eff A :=
  match x with
  | Some v => ret v
  | None => mkEff TypeError []
  end.

(** Every recorded read of an array of length [n] was inside it. *)
Definition inRange (n : Z) (l : list Z) : Prop :=
  Forall (fun i => 0 <= i < n) l.

End JS.

Import JS.

Notation "x <- m ;; k" := (bind m (fun x => k))
  (at level 61, m at next level, right associativity).

(** ** Data model *)

(** A parsed [S] element: the items of [ITimelineIndexIndexArgument.timeline]. *)
Module S.
Record t : Type := mk {
  start : option number;
  repeatCount : option number;
  duration : option number
}.
End S.

(** Modelled from the spec: [IIndexSegment] of [utils/index_helpers], the
    normalized TimelineEntry with its three resolved fields; a [duration]
    of [-1] is the open-ended sentinel. *)
Record IIndexSegment : Type := mkSegment {
  start : Q;
  duration : Q;
  repeatCount : Q
}.

Record Initialization : Type := mkInitialization {
  init_mediaURL : string;
  init_range : option (Z * Z)
}.

Record ITimelineIndex : Type := mkIndex {
  indexRange : option (Z * Z);
  indexTimeOffset : Q;
  initialization : option Initialization;
  mediaURL : string;
  startNumber : option Z;
  timeline : list IIndexSegment;
  timescale : Q
}.

Record InitializationArgument : Type := mkInitializationArgument {
  arg_init_media : option string;
  arg_init_range : option (Z * Z)
}.

Record ITimelineIndexIndexArgument : Type := mkIndexArgument {
  arg_indexRange : option (Z * Z);
  arg_initialization : option InitializationArgument;
  arg_media : option string;
  arg_startNumber : option Z;
  arg_timeline : list S.t;
  arg_timescale : Q;
  arg_presentationTimeOffset : option Q
}.

(** The collaborator that knows the start of the time-shift buffer, as it
    answers at the time of the call. *)
Record ManifestBoundsCalculator : Type := mkBounds {
  getMinimumBound : option Q
}.

Record ITimelineIndexContextArgument : Type := mkContext {
  ctx_manifestBoundsCalculator : ManifestBoundsCalculator;
  ctx_periodStart : Q;
  ctx_periodEnd : option Q;
  ctx_isDynamic : bool;
  ctx_receivedTime : option Q;
  ctx_representationBaseURL : string;
  ctx_representationId : option string;
  ctx_representationBitrate : option Z
}.

(** Modelled from the spec: the [Segment] output unit of the manifest
    module ([ISegment]), with the fields the spec lists. *)
Record ISegment : Type := mkISegment {
  isInit : bool;
  seg_time : Q;
  seg_duration : Q;
  seg_number : option Z;
  seg_url : string;
  seg_range : option (Z * Z);
  seg_indexRange : option (Z * Z);
  seg_timescale : Q
}.

(** Modelled from the spec: the errors of the [errors] module as far as
    [canBeOutOfSyncError] looks at them, a network-error discriminator and
    the predicate [isHttpError(code)] a network error carries. *)
Inductive ICustomError : Type :=
| NetworkError (isHttpError : Z -> bool)
| MediaError
| EncryptedMediaError
| OtherError.

(** ** Helpers of [utils/index_helpers] *)

Local Open Scope Q_scope.

(** [x < y] on resolved numbers. *)
Definition Qlt_bool (x y : Q) : bool :=
  negb (Qle_bool y x).

(** The double nearest to a rational, ties to the even mantissa: with [e]
    the exponent that brings the magnitude into [2^52 .. 2^53) (not below
    -1074, where the subnormal numbers lie), the magnitude is rounded to a
    whole multiple of [2^e]. *)
Definition round64 (x : Q) : Q :=
  let x := Qred x in
  if Qeq_bool x 0 then 0
  else
    let a := Qabs x in
    let k := (Z.log2 (Qnum a) - Z.log2 (Zpos (Qden a)))%Z in
    let l := if Qle_bool (2 ^ k) a then k else (k - 1)%Z in
    let e := Z.max (l - 52) (-1074) in
    let y := a / 2 ^ e in
    let m := Qfloor y in
    let r := y - inject_Z m in
    let m' := if Qlt_bool r (1 # 2) then m
              else if Qlt_bool (1 # 2) r then (m + 1)%Z
              else if Z.even m then m else (m + 1)%Z in
    let v := Qred (inject_Z m' * 2 ^ e) in
    if Qlt_bool x 0 then - v else v.

(** [x + y] on numbers. *)
Definition add64 (x y : Q) : Q := round64 (x + y).

(** [x - y] on numbers. *)
Definition sub64 (x y : Q) : Q := round64 (x - y).

(** [x * y] on numbers. *)
Definition mul64 (x y : Q) : Q := round64 (x * y).

(** [x / y] on numbers. *)
Definition div64 (x y : Q) : Q := round64 (x / y).

(** [Math.floor(x)]. *)
Definition floor64 (x : Q) : Q := inject_Z (Qfloor x).

Arguments round64 : simpl never.
Arguments add64 : simpl never.
Arguments sub64 : simpl never.
Arguments mul64 : simpl never.
Arguments div64 : simpl never.
Arguments floor64 : simpl never.

(** Rounding is unfolded last when two terms are compared. *)
Strategy 1000 [round64].

(** Modelled from the spec: [toIndexTime] of [utils/index_helpers]; the
    comment on [indexTimeOffset] gives the formula,
    [T * timescale + indexTimeOffset]. The conversion is taken exact. *)
Definition toIndexTime (time : Q) (index : ITimelineIndex) : Q :=
  time * timescale index + indexTimeOffset index.

(** Modelled from the spec: [fromIndexTime] of [utils/index_helpers], the
    inverse conversion from index time to seconds, taken exact. *)
Definition fromIndexTime (time : Q) (index : ITimelineIndex) : Q :=
  (time - indexTimeOffset index) / timescale index.

(** Modelled from the spec: the stand-in for an end that is unbounded, the
    largest finite number. *)
Definition Number_MAX_VALUE : Q :=
  inject_Z ((2 ^ 53 - 1) * 2 ^ 971).

(** Modelled from the spec: [getIndexSegmentEnd] of [utils/index_helpers],
    the entry end computation. With a concrete duration the end is
    [start + duration * (repeatCount + 1)], computed on numbers as the
    normalizer computes it; with the open-ended sentinel it is the next
    entry's start, else the period's end, else unbounded, for which the
    largest number stands. *)
Definition getIndexSegmentEnd (segment : IIndexSegment)
    (nextSegment : option IIndexSegment) (maxPosition : option Q) : Q :=
  if Qeq_bool (duration segment) (-1) then
    match nextSegment with
    | Some next => start next
    | None =>
      match maxPosition with
      | Some m => m
      | None => Number_MAX_VALUE
      end
    end
  else add64 (start segment)
             (mul64 (duration segment) (add64 (repeatCount segment) 1)).

(** Modelled from the spec: [clearTimelineFromPosition] of
    [utils/clear_timeline_from_position], the eviction: every entry that
    has fully expired before the cutoff (its end is at or before it) is
    removed, the others, also one that straddles the cutoff, are kept in
    their order. *)
Fixpoint clearTimelineFromPosition (timeline : list IIndexSegment)
    (firstAvailablePosition : Q) : list IIndexSegment :=
  match timeline with
  | [] => []
  | segment :: rest =>
    if Qle_bool (getIndexSegmentEnd segment (hd_error rest) None)
                firstAvailablePosition
    then clearTimelineFromPosition rest firstAvailablePosition
    else segment :: clearTimelineFromPosition rest firstAvailablePosition
  end.

(** ** The normalizer *)

(** [fromParsedSToIndexSegment]. [None] is the [null] returned after the
    warning "A S Element could not have been parsed". The test
    [previousItem.duration != null] holds for every resolved entry, whose
    duration is a number. *)
Definition fromParsedSToIndexSegment (item : S.t)
    (previousItem : option IIndexSegment) (nextItem : option S.t)
    (timelineStart : Q) : option IIndexSegment :=
  let start0 := S.start item in
  let duration0 := S.duration item in
  let repeatCount0 := S.repeatCount item in
  let start1 :=
    if isNullish start0 then
      match previousItem with
      | None => Some (Num timelineStart)
      | Some previous =>
        Some (Num (add64 (start previous)
                         (mul64 (duration previous)
                                (add64 (repeatCount previous) 1))))
      end
    else start0 in
  let duration1 :=
    match nextItem with
    | Some next =>
      if negb (isKnown duration0) && isKnown (S.start next) && isKnown start1
      then Some (Num (sub64 (valueOf (S.start next)) (valueOf start1)))
      else duration0
    | None => duration0
    end in
  if isKnown start1 && isKnown duration1 &&
     (isNullish repeatCount0 || isKnown repeatCount0)
  then Some {| start := valueOf start1;
               duration := valueOf duration1;
               repeatCount := match repeatCount0 with
                              | None => 0
                              | Some _ => valueOf repeatCount0
                              end |}
  else None.

(** The loop of the constructor over [index.timeline]. The source calls the
    last resolved entry [nextItem] and the following raw item [prevItem];
    they are passed as [previousItem] and [nextItem]. *)
Fixpoint normalizeLoop (initialTimeline : list S.t)
    (timeline : list IIndexSegment) (scaledStart : Q) : list IIndexSegment :=
  match initialTimeline with
  | [] => timeline
  | item :: following =>
    let nextItem := array_get timeline (array_length timeline - 1) in
    let prevItem := hd_error following in
    match fromParsedSToIndexSegment item nextItem prevItem scaledStart with
    | Some timelineElement =>
      normalizeLoop following (timeline ++ [timelineElement]) scaledStart
    | None => normalizeLoop following timeline scaledStart
    end
  end.

(** ** The floor search *)

(** The [while] loop of [getSegmentIndex]; [fuel] bounds its iterations. *)
Fixpoint getSegmentIndex_loop (fuel : nat) (timeline : list IIndexSegment)
    (start_ : Q) (low high : Z) : Eff Z :=
  if (low <? high)%Z then
    match fuel with
    | O => mkEff Diverge []
    | Datatypes.S fuel' =>
      let mid := ushr1 (low + high) in
      item <- read timeline mid ;;
      segment <- deref item ;;
      if Qlt_bool (start segment) start_
      then getSegmentIndex_loop fuel' timeline start_ (mid + 1)%Z high
      else getSegmentIndex_loop fuel' timeline start_ low mid
    end
  else ret low.

(** [getSegmentIndex]. The interval [low .. high] shrinks at every turn of
    the loop as long as [>>> 1] halves, so [timeline.length] turns are
    enough fuel. *)
Definition getSegmentIndex (index : ITimelineIndex) (start_ : Q) : Eff Z :=
  let timeline := timeline index in
  low <- getSegmentIndex_loop (List.length timeline) timeline start_
           0%Z (array_length timeline) ;;
  ret (if (low >? 0)%Z then (low - 1)%Z else low).

(** ** The class [TimelineRepresentationIndex] *)

Record TimelineRepresentationIndex : Type := mkTimelineRepresentationIndex {
  _index : ITimelineIndex;
  _lastUpdate : Q;
  _scaledPeriodStart : Q;
  _scaledPeriodEnd : option Q;
  _isDynamic : bool;
  _manifestBoundsCalculator : ManifestBoundsCalculator
}.

(** A method: from [this] to its completion and the object afterwards. *)
Definition Method (A : Type) : Type :=
  TimelineRepresentationIndex -> Eff A * TimelineRepresentationIndex.

(** The object after the array [this._index.timeline] was changed in place. *)
Definition withTimeline (this : TimelineRepresentationIndex)
    (timeline' : list IIndexSegment) : TimelineRepresentationIndex :=
  let index := _index this in
  {| _index := {| indexRange := indexRange index;
                  indexTimeOffset := indexTimeOffset index;
                  initialization := initialization index;
                  mediaURL := mediaURL index;
                  startNumber := startNumber index;
                  timeline := timeline';
                  timescale := timescale index |};
     _lastUpdate := _lastUpdate this;
     _scaledPeriodStart := _scaledPeriodStart this;
     _scaledPeriodEnd := _scaledPeriodEnd this;
     _isDynamic := _isDynamic this;
     _manifestBoundsCalculator := _manifestBoundsCalculator this |}.

(** [_refreshTimeline], the eviction pass. *)
Definition _refreshTimeline (this : TimelineRepresentationIndex)
    : TimelineRepresentationIndex :=
  match getMinimumBound (_manifestBoundsCalculator this) with
  | None => this
  | Some firstPosition =>
    let scaledFirstPosition := toIndexTime firstPosition (_index this) in
    withTimeline this
      (clearTimelineFromPosition (timeline (_index this)) scaledFirstPosition)
  end.

(** [_getTheoriticalLastPosition]; [now] is what [performance.now()]
    answers. *)
Definition _getTheoriticalLastPosition (now : Q)
    (this : TimelineRepresentationIndex) : Eff (option Q) :=
  let index := _index this in
  if (array_length (timeline index) <=? 0)%Z then ret None
  else
    item <- read (timeline index) (array_length (timeline index) - 1)%Z ;;
    lastTimelineElement <- deref item ;;
    let lastPosition :=
      getIndexSegmentEnd lastTimelineElement None (_scaledPeriodEnd this) in
    if negb (_isDynamic this) then ret (Some lastPosition)
    else
      let lastSegmentDuration := duration lastTimelineElement in
      let timeDiffInSeconds := div64 (sub64 now (_lastUpdate this)) 1000 in
      let timeDiffTS := mul64 timeDiffInSeconds (timescale index) in
      if Qlt_bool timeDiffTS lastSegmentDuration then ret (Some lastPosition)
      else
        let numberOfNewSegments :=
          floor64 (div64 timeDiffTS lastSegmentDuration) in
        ret (Some (add64 (mul64 numberOfNewSegments lastSegmentDuration)
                         lastPosition)).

(** [shouldRefresh(_up, to)]. *)
Definition shouldRefresh (now : Q) (_up to : Q) : Method bool :=
  fun this =>
  let this := _refreshTimeline this in
  (if negb (_isDynamic this) then ret false
   else if (array_length (timeline (_index this)) =? 0)%Z then ret true
   else
     item <- read (timeline (_index this))
               (array_length (timeline (_index this)) - 1)%Z ;;
     lastTimelineElt <- deref item ;;
     let lastTime :=
       getIndexSegmentEnd lastTimelineElt None (_scaledPeriodEnd this) in
     if Qlt_bool (mul64 to (timescale (_index this))) lastTime then ret false
     else
       lastTheoriticalPosition <- _getTheoriticalLastPosition now this ;;
       match lastTheoriticalPosition with
       | None => ret true
       | Some position => ret (Qlt_bool lastTime position)
       end,
   this).

(** [getFirstPosition()]; [None] is [null]. *)
Definition getFirstPosition : Method (option Q) :=
  fun this =>
  let this := _refreshTimeline this in
  let index := _index this in
  (if (array_length (timeline index) =? 0)%Z then ret None
   else
     item <- read (timeline index) 0%Z ;;
     first <- deref item ;;
     ret (Some (fromIndexTime (start first) index)),
   this).

(** [getLastPosition()]; [None] is [null]. *)
Definition getLastPosition : Method (option Q) :=
  fun this =>
  let this := _refreshTimeline this in
  let timeline := timeline (_index this) in
  (if (array_length timeline =? 0)%Z then ret None
   else
     item <- read timeline (array_length timeline - 1)%Z ;;
     lastTimelineElement <- deref item ;;
     let lastTime :=
       getIndexSegmentEnd lastTimelineElement None (_scaledPeriodEnd this) in
     ret (Some (fromIndexTime lastTime (_index this))),
   this).

(** [checkDiscontinuity(_time)]. *)
Definition checkDiscontinuity (_time : Q) : Method Q :=
  fun this =>
  let this := _refreshTimeline this in
  let timeline := timeline (_index this) in
  let timescale := timescale (_index this) in
  let scaledTime := toIndexTime _time (_index this) in
  (if Qle_bool scaledTime 0 then ret (-1)
   else
     segmentIndex <- getSegmentIndex (_index this) scaledTime ;;
     if ((segmentIndex <? 0) || (segmentIndex >=? array_length timeline - 1))%Z
     then ret (-1)
     else
       item <- read timeline segmentIndex ;;
       timelineItem <- deref item ;;
       if Qeq_bool (duration timelineItem) (-1) then ret (-1)
       else
         nextTimelineItem <- read timeline (segmentIndex + 1)%Z ;;
         match nextTimelineItem with
         | None => ret (-1)
         | Some next =>
           let rangeUp := start timelineItem in
           let rangeTo :=
             getIndexSegmentEnd timelineItem nextTimelineItem
                                (_scaledPeriodEnd this) in
           if Qlt_bool rangeTo (start next) &&
              Qle_bool rangeUp scaledTime &&
              Qlt_bool (sub64 rangeTo scaledTime) timescale
           then ret (fromIndexTime (start next) (_index this))
           else ret (-1)
         end,
   this).

(** [canBeOutOfSyncError(error)]. *)
Definition canBeOutOfSyncError (error : ICustomError) : Method bool :=
  fun this =>
  (if negb (_isDynamic this) then ret false
   else
     ret match error with
         | NetworkError isHttpError => isHttpError 404%Z
         | _ => false
         end,
   this).

(** [_update(newIndex)]: every field is taken from [newIndex], which is
    discarded afterwards, so that the two objects sharing [_index] is not
    modelled. *)
Definition _update (newIndex : TimelineRepresentationIndex) : Method unit :=
  fun this =>
  (ret tt,
   {| _index := _index newIndex;
      _lastUpdate := _lastUpdate newIndex;
      _scaledPeriodStart := _scaledPeriodStart newIndex;
      _scaledPeriodEnd := _scaledPeriodEnd newIndex;
      _isDynamic := _isDynamic newIndex;
      _manifestBoundsCalculator := _manifestBoundsCalculator newIndex |}).

(** [_addSegments()]: nothing but a warning in development builds. *)
Definition _addSegments : Method unit :=
  fun this => (ret tt, this).

(** [isFinished()]. *)
Definition isFinished : Method bool :=
  fun this =>
  (if negb (_isDynamic this) then ret true
   else
     let timeline := timeline (_index this) in
     match _scaledPeriodEnd this with
     | None => ret false
     | Some scaledPeriodEnd =>
       if (array_length timeline =? 0)%Z then ret false
       else
         item <- read timeline (array_length timeline - 1)%Z ;;
         lastTimelineElement <- deref item ;;
         let lastTime :=
           getIndexSegmentEnd lastTimelineElement None
                              (_scaledPeriodEnd this) in
         ret (Qle_bool scaledPeriodEnd (add64 lastTime (div64 1 60)))
     end,
   this).

(** The methods that go through helpers of other modules, which are taken
    as they come. *)
Section ImportedHelpers.

(** [createIndexURL] of [./tokens]. *)
Variable createIndexURL :
  string -> option string -> option string -> option Z -> string.
(** [getInitSegment] of [./get_init_segment]. *)
Variable get_init_segment : ITimelineIndex -> ISegment.
(** [getSegmentsFromTimeline] of [./get_segments_from_timeline]. *)
Variable getSegmentsFromTimeline :
  ITimelineIndex -> Q -> Q -> option Q -> list ISegment.
(** [isSegmentStillAvailable] of [utils/is_segment_still_available]. *)
Variable is_segment_still_available :
  ISegment -> list IIndexSegment -> Q -> Q -> option bool.

(** The constructor; [now] is what [performance.now()] answers. *)
Definition constructor (now : Q) (index : ITimelineIndexIndexArgument)
    (context : ITimelineIndexContextArgument)
    : TimelineRepresentationIndex :=
  let timescale := arg_timescale index in
  let presentationTimeOffset :=
    match arg_presentationTimeOffset index with
    | Some offset => offset
    | None => 0
    end in
  let scaledStart := mul64 (ctx_periodStart context) timescale in
  let indexTimeOffset := sub64 presentationTimeOffset scaledStart in
  let timeline := normalizeLoop (arg_timeline index) [] scaledStart in
  let index' :=
    {| indexRange := arg_indexRange index;
       indexTimeOffset := indexTimeOffset;
       initialization :=
         match arg_initialization index with
         | None => None
         | Some init =>
           Some {| init_mediaURL :=
                     createIndexURL (ctx_representationBaseURL context)
                                    (arg_init_media init)
                                    (ctx_representationId context)
                                    (ctx_representationBitrate context);
                   init_range := arg_init_range init |}
         end;
       mediaURL := createIndexURL (ctx_representationBaseURL context)
                                  (arg_media index)
                                  (ctx_representationId context)
                                  (ctx_representationBitrate context);
       startNumber := arg_startNumber index;
       timeline := timeline;
       timescale := timescale |} in
  {| _index := index';
     _lastUpdate := match ctx_receivedTime context with
                    | None => now
                    | Some receivedTime => receivedTime
                    end;
     _scaledPeriodStart := toIndexTime (ctx_periodStart context) index';
     _scaledPeriodEnd := match ctx_periodEnd context with
                         | None => None
                         | Some periodEnd =>
                           Some (toIndexTime periodEnd index')
                         end;
     _isDynamic := ctx_isDynamic context;
     _manifestBoundsCalculator := ctx_manifestBoundsCalculator context |}.


(** [getSegments(from, duration)]. *)
Definition getSegments (from duration_ : Q) : Method (list ISegment) :=
  fun this =>
  let this := _refreshTimeline this in
  (ret (getSegmentsFromTimeline (_index this) from duration_
                                (_scaledPeriodEnd this)),
   this).

(** [isSegmentStillAvailable(segment)]; [None] is [undefined]. *)
Definition isSegmentStillAvailable (segment : ISegment)
    : Method (option bool) :=
  fun this =>
  if isInit segment then (ret (Some true), this)
  else
    let this := _refreshTimeline this in
    (ret (is_segment_still_available segment
            (timeline (_index this)) (timescale (_index this))
            (indexTimeOffset (_index this))),
     this).

End ImportedHelpers.

(** ** Notions the properties are stated with *)

(** The end of the run of an entry with a concrete duration,
    [start + duration * (repeatCount + 1)] as the code computes it. *)
Definition entryEnd (entry : IIndexSegment) : Q :=
  add64 (start entry) (mul64 (duration entry) (add64 (repeatCount entry) 1)).

(** [timeline[timeline.length - 1]]. *)
Definition lastEntry (timeline : list IIndexSegment) : option IIndexSegment :=
  array_get timeline (array_length timeline - 1).

(** A network-layer error that carries the HTTP status 404. *)
Definition isNetwork404 (error : ICustomError) : Prop :=
  exists isHttpError,
    error = NetworkError isHttpError /\ isHttpError 404%Z = true.

(** [lastTime] lies within a sixtieth of a second of [scaledPeriodEnd],
    both in index time of the given timescale. *)
Definition withinOneSixtieth (timescale lastTime scaledPeriodEnd : Q) : Prop :=
  Qabs (lastTime - scaledPeriodEnd) <= timescale / 60.

(** What is said of [isFinished]: on a dynamic index with a known period
    end and a last entry, [true] exactly when the end of that entry is
    within a sixtieth of a second of the period end. *)
Definition isFinished_within_tolerance (this : TimelineRepresentationIndex)
    : Prop :=
  let result := outcome (fst (isFinished this)) in
  if _isDynamic this then
    match _scaledPeriodEnd this, lastEntry (timeline (_index this)) with
    | Some scaledPeriodEnd, Some lastTimelineElement =>
      result = Normal true <->
      withinOneSixtieth (timescale (_index this))
        (getIndexSegmentEnd lastTimelineElement None (Some scaledPeriodEnd))
        scaledPeriodEnd
    | _, _ => result = Normal false
    end
  else result = Normal true.

(** The timeline is sorted strictly ascending by start. *)
Definition ascendingByStart (timeline : list IIndexSegment) : Prop :=
  ForallOrdPairs (fun a b => start a < start b) timeline.




(** Every run has a positive length and ends at or before the start of the
    entry that follows it. *)
Fixpoint chained (timeline : list IIndexSegment) : Prop :=
  match timeline with
  | [] => True
  | entry :: rest =>
    start entry < entryEnd entry /\
    match rest with
    | [] => True
    | next :: _ => entryEnd entry <= start next
    end /\
    chained rest
  end.

(** What is said of the discontinuity test of [checkDiscontinuity] on the
    entry the search lands on: the gap to the next entry is positive, the
    scaled time lies in the run of the entry, and less than one timescale
    unit is left to the end of the run. *)
Definition inDiscontinuity_as_stated (timelineItem next : IIndexSegment)
    (scaledPeriodEnd : option Q) (scaledTime timescale : Q) : Prop :=
  let rangeTo :=
    getIndexSegmentEnd timelineItem (Some next) scaledPeriodEnd in
  rangeTo < start next /\
  (start timelineItem <= scaledTime /\ scaledTime < rangeTo) /\
  rangeTo - scaledTime < timescale.

(** The discontinuity test the code makes: the scaled time is positive, the
    gap to the next entry is positive, the scaled time is at or after the
    start of the entry, and the end of the run minus the scaled time, as
    the code computes the difference, is less than one timescale unit, which
    holds for every time at or past that end. *)
Definition inDiscontinuity (timelineItem next : IIndexSegment)
    (scaledPeriodEnd : option Q) (scaledTime timescale : Q) : Prop :=
  let rangeTo :=
    getIndexSegmentEnd timelineItem (Some next) scaledPeriodEnd in
  0 < scaledTime /\
  rangeTo < start next /\
  start timelineItem <= scaledTime /\
  sub64 rangeTo scaledTime < timescale.

(** The object when the bounds calculator does not know the minimum bound,
    so that the eviction pass leaves it as it is. *)
Definition settled (this : TimelineRepresentationIndex)
    : TimelineRepresentationIndex :=
  {| _index := _index this;
     _lastUpdate := _lastUpdate this;
     _scaledPeriodStart := _scaledPeriodStart this;
     _scaledPeriodEnd := _scaledPeriodEnd this;
     _isDynamic := _isDynamic this;
     _manifestBoundsCalculator := {| getMinimumBound := None |} |}.

(** ** Notions of further properties *)

(** No entry of the timeline is followed by a gap: the next entry starts at
    or before the end computed for the entry. *)
Definition gapless (timeline : list IIndexSegment)
    (scaledPeriodEnd : option Q) : Prop :=
  forall i entry next,
    array_get timeline i = Some entry ->
    array_get timeline (i + 1) = Some next ->
    start next <= getIndexSegmentEnd entry (Some next) scaledPeriodEnd.

(** [timeDiffTS] of [_getTheoriticalLastPosition]: the time since the last
    update, in index time. *)
Definition timeDiffTS (now : Q) (this : TimelineRepresentationIndex) : Q :=
  mul64 (div64 (sub64 now (_lastUpdate this)) 1000) (timescale (_index this)).

(** The [S] element declares a start and a duration that are numbers, and
    no repeat count or one that is a number. *)
Definition fullyDeclared (item : S.t) : bool :=
  isKnown (S.start item) && isKnown (S.duration item) &&
  (isNullish (S.repeatCount item) || isKnown (S.repeatCount item)).

(** The entry with the values the [S] element declares. *)
Definition asDeclared (item : S.t) : IIndexSegment :=
  {| start := valueOf (S.start item);
     duration := valueOf (S.duration item);
     repeatCount := match S.repeatCount item with
                    | None => 0
                    | Some _ => valueOf (S.repeatCount item)
                    end |}.

(** Every entry starts exactly where the run of the entry before it ends. *)
Fixpoint contiguous (timeline : list IIndexSegment) : Prop :=
  match timeline with
  | [] => True
  | entry :: rest =>
    match rest with
    | [] => True
    | next :: _ => start next = entryEnd entry
    end /\
    contiguous rest
  end.

(** The [S] element declares a duration that is a number, and no repeat
    count or one that is a number. *)
Definition declaresDuration (item : S.t) : bool :=
  isKnown (S.duration item) &&
  (isNullish (S.repeatCount item) || isKnown (S.repeatCount item)).

(** The [S] element can be resolved: its start is absent or a number, its
    duration is a number or the next [S] element declares a start that is
    one, and its repeat count is absent or a number. *)
Definition resolvable (item : S.t) (nextItem : option S.t) : bool :=
  (isNullish (S.start item) || isKnown (S.start item)) &&
  (isKnown (S.duration item) ||
   match nextItem with
   | Some next => isKnown (S.start next)
   | None => false
   end) &&
  (isNullish (S.repeatCount item) || isKnown (S.repeatCount item)).

(** ** The parser of [ContentProtection] elements

    The functions [parseContentProtectionChildren],
    [parseContentProtectionAttributes] and [parseContentProtection] of the
    DASH manifest parser. An element is what the parser reads of it: its
    attributes in order and its child nodes in order. The helpers
    [base64ToUint8Array] and [hexToBytes] of [utils] are taken as they
    come; [None] stands for a helper that throws, which ends the parse. *)

Local Open Scope Z_scope.

(** [Node.ELEMENT_NODE] of the DOM. *)
Definition ELEMENT_NODE : Z := 1.

Record Attr : Type := mkAttr {
  attr_name : string;
  attr_value : string
}.

Record Node : Type := mkNode {
  nodeType : Z;
  nodeName : string;
  textContent : option string
}.

Record Element : Type := mkElement {
  attributes : list Attr;
  childNodes : list Node
}.

(** [s.replace(/-/g, "")]. *)
Fixpoint removeDashes (s : string) : string :=
  match s with
  | EmptyString => EmptyString
  | String c rest =>
    if Ascii.eqb c "-"%char then removeDashes rest
    else String c (removeDashes rest)
  end.

Section ContentProtection.

Variable Uint8Array : Type.
(** [base64ToUint8Array] of [utils/base64_to_uint8array]. *)
Variable base64ToUint8Array : string -> option Uint8Array.
(** [hexToBytes] of [utils/byte_parsing]. *)
Variable hexToBytes : string -> option Uint8Array.

Record ContentProtectionChildren : Type := mkChildren {
  cencPssh : list Uint8Array
}.

Record ContentProtectionAttributes : Type := mkAttributes {
  schemeIdUri : option string;
  value : option string;
  keyId : option Uint8Array
}.

Record ContentProtection : Type := mkContentProtection {
  children : ContentProtectionChildren;
  attributes_ : ContentProtectionAttributes
}.

(** The loop of [parseContentProtectionChildren] over the child nodes. *)
Fixpoint parseContentProtectionChildren_loop (nodes : list Node)
    (cencPssh : list Uint8Array) : option (list Uint8Array) :=
  match nodes with
  | [] => Some cencPssh
  | currentElement :: rest =>
    if nodeType currentElement =? ELEMENT_NODE then
      if String.eqb (nodeName currentElement) "cenc:pssh" then
        match textContent currentElement with
        | Some content =>
          if Z.of_nat (String.length content) >? 0 then
            match base64ToUint8Array content with
            | Some bytes =>
              parseContentProtectionChildren_loop rest (cencPssh ++ [bytes])
            | None => None
            end
          else parseContentProtectionChildren_loop rest cencPssh
        | None => parseContentProtectionChildren_loop rest cencPssh
        end
      else parseContentProtectionChildren_loop rest cencPssh
    else parseContentProtectionChildren_loop rest cencPssh
  end.

(** [parseContentProtectionChildren]. *)
Definition parseContentProtectionChildren (contentProtectionChildren : list Node)
    : option ContentProtectionChildren :=
  match parseContentProtectionChildren_loop contentProtectionChildren [] with
  | Some cencPssh => Some {| cencPssh := cencPssh |}
  | None => None
  end.

(** The loop of [parseContentProtectionAttributes] over [root.attributes],
    with its three variables. *)
Fixpoint parseContentProtectionAttributes_loop (attrs : list Attr)
    (schemeIdUri value : option string) (keyId : option Uint8Array)
    : option ContentProtectionAttributes :=
  match attrs with
  | [] => Some {| schemeIdUri := schemeIdUri; value := value; keyId := keyId |}
  | attribute :: rest =>
    if String.eqb (attr_name attribute) "schemeIdUri" then
      parseContentProtectionAttributes_loop rest
        (Some (attr_value attribute)) value keyId
    else if String.eqb (attr_name attribute) "value" then
      parseContentProtectionAttributes_loop rest
        schemeIdUri (Some (attr_value attribute)) keyId
    else if String.eqb (attr_name attribute) "cenc:default_KID" then
      match hexToBytes (removeDashes (attr_value attribute)) with
      | Some bytes =>
        parseContentProtectionAttributes_loop rest
          schemeIdUri value (Some bytes)
      | None => None
      end
    else parseContentProtectionAttributes_loop rest schemeIdUri value keyId
  end.

(** [parseContentProtectionAttributes]. *)
Definition parseContentProtectionAttributes (root : Element)
    : option ContentProtectionAttributes :=
  parseContentProtectionAttributes_loop (attributes root) None None None.

(** [parseContentProtection]. *)
Definition parseContentProtection (contentProtectionElement : Element)
    : option ContentProtection :=
  match parseContentProtectionChildren (childNodes contentProtectionElement)
  with
  | Some children =>
    match parseContentProtectionAttributes contentProtectionElement with
    | Some attributes =>
      Some {| children := children; attributes_ := attributes |}
    | None => None
    end
  | None => None
  end.

End ContentProtection.

Arguments cencPssh {Uint8Array} c.
Arguments schemeIdUri {Uint8Array} c.
Arguments value {Uint8Array} c.
Arguments keyId {Uint8Array} c.
Arguments children {Uint8Array} c.
Arguments attributes_ {Uint8Array} c.

(** The text a child node contributes: that of an element named
    [cenc:pssh] whose text is not empty. *)
Definition psshContent (node : Node) : option string :=
  if nodeType node =? ELEMENT_NODE then
    if String.eqb (nodeName node) "cenc:pssh" then
      match textContent node with
      | Some content =>
        if Z.of_nat (String.length content) >? 0 then Some content else None
      | None => None
      end
    else None
  else None.

(** The texts the child nodes contribute, in order. *)
Fixpoint psshContents (nodes : list Node) : list string :=
  match nodes with
  | [] => []
  | node :: rest =>
    match psshContent node with
    | Some content => content :: psshContents rest
    | None => psshContents rest
    end
  end.

(** The value of the last attribute of the given name. *)
Fixpoint lastNamed (name : string) (attrs : list Attr) : option string :=
  match attrs with
  | [] => None
  | attribute :: rest =>
    match lastNamed name rest with
    | Some v => Some v
    | None =>
      if String.eqb (attr_name attribute) name
      then Some (attr_value attribute)
      else None
    end
  end.

(** The attribute is one of the three the parser reads. *)
Definition isRead (attribute : Attr) : bool :=
  String.eqb (attr_name attribute) "schemeIdUri" ||
  String.eqb (attr_name attribute) "value" ||
  String.eqb (attr_name attribute) "cenc:default_KID".

(** The attribute with the dashes of a [cenc:default_KID] removed. *)
Definition withoutDashes (attribute : Attr) : Attr :=
  if String.eqb (attr_name attribute) "cenc:default_KID"
  then {| attr_name := attr_name attribute;
          attr_value := removeDashes (attr_value attribute) |}
  else attribute.

Local Open Scope Q_scope.

(** ** Sample objects *)

Definition sampleIndex (timeline : list IIndexSegment) (timescale : Q)
    : ITimelineIndex :=
  {| indexRange := None;
     indexTimeOffset := 0;
     initialization := None;
     mediaURL := "seg-$Time$.mp4";
     startNumber := None;
     timeline := timeline;
     timescale := timescale |}.

(** An index object with no index time offset, last updated at 0. *)
Definition sampleObject (timeline : list IIndexSegment) (timescale : Q)
    (isDynamic : bool) (scaledPeriodEnd minimumBound : option Q)
    : TimelineRepresentationIndex :=
  {| _index := sampleIndex timeline timescale;
     _lastUpdate := 0;
     _scaledPeriodStart := 0;
     _scaledPeriodEnd := scaledPeriodEnd;
     _isDynamic := isDynamic;
     _manifestBoundsCalculator := {| getMinimumBound := minimumBound |} |}.

(** A dynamic index whose only entry runs to 20 in a period that ends
    at 10. *)
Definition pastPeriodEnd : TimelineRepresentationIndex :=
  sampleObject [mkSegment 0 20 0] 1 true (Some 10) None.

(** Two [S] elements that declare their starts out of order. *)
Definition outOfOrder : ITimelineIndexIndexArgument :=
  {| arg_indexRange := None;
     arg_initialization := None;
     arg_media := None;
     arg_startNumber := None;
     arg_timeline :=
       [S.mk (Some (Num 10)) None (Some (Num 10));
        S.mk (Some (Num 5)) None (Some (Num 10))];
     arg_timescale := 1;
     arg_presentationTimeOffset := None |}.

(** The scenario of the spec: a run of three segments of duration 10 from
    0, then an [S] element without a start. *)
Definition threeThenOne : ITimelineIndexIndexArgument :=
  {| arg_indexRange := None;
     arg_initialization := None;
     arg_media := None;
     arg_startNumber := None;
     arg_timeline :=
       [S.mk (Some (Num 0)) (Some (Num 2)) (Some (Num 10));
        S.mk None None (Some (Num 5))];
     arg_timescale := 1;
     arg_presentationTimeOffset := None |}.

Definition sampleContext : ITimelineIndexContextArgument :=
  {| ctx_manifestBoundsCalculator := {| getMinimumBound := None |};
     ctx_periodStart := 0;
     ctx_periodEnd := None;
     ctx_isDynamic := true;
     ctx_receivedTime := Some 0;
     ctx_representationBaseURL := "http://host/";
     ctx_representationId := None;
     ctx_representationBitrate := None |}.

(** A [createIndexURL] that appends the template to the base URL. *)
Definition sampleCreateIndexURL (baseURL : string) (media : option string)
    (id : option string) (bitrate : option Z) : string :=
  match media with
  | Some template => (baseURL ++ template)%string
  | None => baseURL
  end.

(** An open-ended [S] element followed by one without a start. *)
Definition afterOpenEnded : ITimelineIndexIndexArgument :=
  {| arg_indexRange := None;
     arg_initialization := None;
     arg_media := None;
     arg_startNumber := None;
     arg_timeline :=
       [S.mk (Some (Num 0)) None (Some (Num (-1)));
        S.mk None None (Some (Num 5))];
     arg_timescale := 1;
     arg_presentationTimeOffset := None |}.

(** Three contiguous entries of duration 10. *)
Definition contiguousThree : ITimelineIndex :=
  sampleIndex [mkSegment 0 10 0; mkSegment 10 10 0; mkSegment 20 10 0] 1.

(** The scenario of the spec: an entry from 0 to 10, a gap, an entry from
    20, at timescale 1. *)
Definition gapAfterTen : TimelineRepresentationIndex :=
  sampleObject [mkSegment 0 10 0; mkSegment 20 10 0] 1 true None None.

(** The scenario of the spec: a dynamic index whose only entry runs from 0
    to 4 at timescale 1, last updated at 0. *)
Definition fourSecondsLive : TimelineRepresentationIndex :=
  sampleObject [mkSegment 0 4 0] 1 true None None.



(** A dynamic index of three contiguous entries of duration 10. *)
Definition contiguousLive : TimelineRepresentationIndex :=
  sampleObject (timeline contiguousThree) 1 true None None.

(** An [S] element without a duration, followed by one that starts at 7. *)
Definition untilSeven : S.t :=
  S.mk (Some (Num 0)) None None.

Definition fromSeven : S.t :=
  S.mk (Some (Num 7)) None (Some (Num 3)).

(** A [hexToBytes] for the samples, which keeps the digits as they are. *)
Definition sampleHexToBytes (hex : string) : option string :=
  Some hex.

(** A [ContentProtection] element with a key id and a repeated scheme. *)
Definition sampleProtection : Element :=
  {| attributes :=
       [mkAttr "schemeIdUri" "urn:mpeg:dash:mp4protection:2011";
        mkAttr "cenc:default_KID" "10000000-1000-1000-1000-100000000001";
        mkAttr "id" "cp1";
        mkAttr "schemeIdUri" "urn:uuid:edef8ba9-79d6-4ace-a3c8-27dcd51d21ed"];
     childNodes :=
       [mkNode 3 "#text" (Some " "%string);
        mkNode 1 "cenc:pssh" (Some "AAAA"%string);
        mkNode 1 "cenc:pssh" (Some ""%string)] |}.

(** ** Basic facts *)

Lemma Qlt_bool_iff (x y : Q) : Qlt_bool x y = true <-> x < y.
Proof.
  unfold Qlt_bool. rewrite negb_true_iff.
  split; intro H.
  - apply Qnot_le_lt. intro Hle.
    apply Qle_bool_iff in Hle. congruence.
  - destruct (Qle_bool y x) eqn:E; [|reflexivity].
    apply Qle_bool_iff in E. exfalso. apply (Qlt_not_le _ _ H E).
Qed.

Lemma Qlt_bool_false_iff (x y : Q) : Qlt_bool x y = false <-> y <= x.
Proof.
  unfold Qlt_bool. rewrite negb_false_iff. apply Qle_bool_iff.
Qed.

Lemma Qle_bool_false_iff (x y : Q) : Qle_bool x y = false <-> y < x.
Proof.
  rewrite <- Qlt_bool_iff. unfold Qlt_bool.
  destruct (Qle_bool x y); simpl; intuition congruence.
Qed.

(** Closed statements are settled by evaluation. *)
Ltac evaluate :=
  vm_compute;
  repeat split;
  try reflexivity; try discriminate; try (intro; discriminate).

(** Numbers that are equal as rationals round to the same double. *)
#[global] Instance round64_Proper : Proper (Qeq ==> eq) round64.
Proof.
  intros x y H. unfold round64. rewrite (Qred_complete _ _ H). reflexivity.
Qed.

#[global] Instance add64_Proper : Proper (Qeq ==> Qeq ==> eq) add64.
Proof.
  intros x x' Hx y y' Hy. unfold add64. rewrite Hx, Hy. reflexivity.
Qed.

#[global] Instance sub64_Proper : Proper (Qeq ==> Qeq ==> eq) sub64.
Proof.
  intros x x' Hx y y' Hy. unfold sub64. rewrite Hx, Hy. reflexivity.
Qed.

#[global] Instance mul64_Proper : Proper (Qeq ==> Qeq ==> eq) mul64.
Proof.
  intros x x' Hx y y' Hy. unfold mul64. rewrite Hx, Hy. reflexivity.
Qed.

#[global] Instance div64_Proper : Proper (Qeq ==> Qeq ==> eq) div64.
Proof.
  intros x x' Hx y y' Hy. unfold div64. rewrite Hx, Hy. reflexivity.
Qed.

Lemma array_get_nil {A : Type} (i : Z) : array_get (@nil A) i = None.
Proof.
  unfold array_get. destruct (i <? 0)%Z; [reflexivity|].
  destruct (Z.to_nat i); reflexivity.
Qed.

Lemma array_get_Some_range {A : Type} (a : list A) (i : Z) (x : A) :
  array_get a i = Some x -> (0 <= i < array_length a)%Z.
Proof.
  unfold array_get, array_length. intro H.
  destruct (i <? 0)%Z eqn:E; [discriminate|].
  apply Z.ltb_ge in E.
  assert (Hn : (Z.to_nat i < List.length a)%nat)
    by (apply nth_error_Some; congruence).
  lia.
Qed.

Lemma array_get_last {A : Type} (a : list A) (x : A) :
  array_get (a ++ [x]) (array_length (a ++ [x]) - 1) = Some x.
Proof.
  unfold array_get, array_length. rewrite length_app. simpl.
  replace (Z.of_nat (List.length a + 1) - 1)%Z with (Z.of_nat (List.length a))
    by lia.
  destruct (Z.of_nat (List.length a) <? 0)%Z eqn:E;
    [apply Z.ltb_lt in E; lia|].
  rewrite Nat2Z.id, nth_error_app2, Nat.sub_diag by lia. reflexivity.
Qed.

(** The eviction never adds an entry. *)
Lemma clearTimelineFromPosition_length (timeline : list IIndexSegment)
    (firstAvailablePosition : Q) :
  (List.length (clearTimelineFromPosition timeline firstAvailablePosition)
   <= List.length timeline)%nat.
Proof.
  induction timeline as [|segment rest IH]; simpl; [lia|].
  destruct (Qle_bool _ _); simpl; lia.
Qed.

Lemma _refreshTimeline_length (this : TimelineRepresentationIndex) :
  (array_length (timeline (_index (_refreshTimeline this)))
   <= array_length (timeline (_index this)))%Z.
Proof.
  unfold _refreshTimeline, array_length.
  destruct (getMinimumBound _); simpl; [|lia].
  apply inj_le, clearTimelineFromPosition_length.
Qed.

(** The eviction changes nothing but the timeline. *)
Lemma _refreshTimeline_fields (this : TimelineRepresentationIndex) :
  _isDynamic (_refreshTimeline this) = _isDynamic this /\
  _scaledPeriodEnd (_refreshTimeline this) = _scaledPeriodEnd this /\
  _lastUpdate (_refreshTimeline this) = _lastUpdate this /\
  timescale (_index (_refreshTimeline this)) = timescale (_index this) /\
  indexTimeOffset (_index (_refreshTimeline this))
    = indexTimeOffset (_index this).
Proof.
  unfold _refreshTimeline. destruct (getMinimumBound _); simpl; auto.
Qed.

Lemma lastEntry_None (timeline : list IIndexSegment) :
  lastEntry timeline = None -> timeline = [].
Proof.
  destruct timeline as [|segment rest] using rev_ind; [reflexivity|].
  unfold lastEntry. rewrite array_get_last. discriminate.
Qed.

Lemma lastEntry_Some (timeline : list IIndexSegment) (entry : IIndexSegment) :
  lastEntry timeline = Some entry ->
  (array_length timeline =? 0)%Z = false /\
  (array_length timeline <=? 0)%Z = false.
Proof.
  intro H. apply array_get_Some_range in H.
  split; [apply Z.eqb_neq | apply Z.leb_gt]; lia.
Qed.

(** ** [canBeOutOfSyncError] *)

(** C9. [canBeOutOfSyncError(error)] answers [false] for every error on a
    static index; on a dynamic index it answers, and answers [true] exactly
    when the error is a network error that carries the HTTP status 404. *)
Theorem canBeOutOfSyncError_spec (error : ICustomError)
    (this : TimelineRepresentationIndex) :
  let result := outcome (fst (canBeOutOfSyncError error this)) in
  if _isDynamic this then
    (result = Normal true <-> isNetwork404 error) /\
    (result = Normal false <-> ~ isNetwork404 error)
  else result = Normal false.
Proof.
  unfold canBeOutOfSyncError, isNetwork404. simpl.
  destruct (_isDynamic this); simpl; [|reflexivity].
  destruct error as [isHttpError| | |]; simpl.
  - destruct (isHttpError 404%Z) eqn:E; split; split; intro H;
      try discriminate; try reflexivity.
    + eauto.
    + exfalso. apply H. eauto.
    + destruct H as [h [Heq Hh]]. injection Heq as <-. congruence.
    + intros [h [Heq Hh]]. injection Heq as <-. congruence.
  - split; split; intro H; try discriminate; try reflexivity.
    + destruct H as [h [Heq _]]. discriminate.
    + intros [h [Heq _]]. discriminate.
  - split; split; intro H; try discriminate; try reflexivity.
    + destruct H as [h [Heq _]]. discriminate.
    + intros [h [Heq _]]. discriminate.
  - split; split; intro H; try discriminate; try reflexivity.
    + destruct H as [h [Heq _]]. discriminate.
    + intros [h [Heq _]]. discriminate.
Qed.

(** ** [isFinished] *)

(** C8, as the code has it. [isFinished()] answers [true] on a static
    index; on a dynamic index it answers [false] when the period end is
    unknown or the timeline is empty, and otherwise [true] exactly when the
    end of the last entry plus one sixtieth of an index time unit, the sum
    and the sixtieth being the doubles the code computes, reaches the scaled
    period end: an end that lies beyond the period end counts as finished
    however far beyond it lies. *)
Theorem isFinished_spec (this : TimelineRepresentationIndex) :
  let result := outcome (fst (isFinished this)) in
  if _isDynamic this then
    match _scaledPeriodEnd this, lastEntry (timeline (_index this)) with
    | Some scaledPeriodEnd, Some lastTimelineElement =>
      (result = Normal true <->
       scaledPeriodEnd <=
         add64 (getIndexSegmentEnd lastTimelineElement None
                                   (Some scaledPeriodEnd))
               (div64 1 60)) /\
      (result = Normal false <->
       add64 (getIndexSegmentEnd lastTimelineElement None
                                 (Some scaledPeriodEnd))
             (div64 1 60) < scaledPeriodEnd)
    | _, _ => result = Normal false
    end
  else result = Normal true.
Proof.
  unfold isFinished. simpl.
  destruct (_isDynamic this); simpl; [|reflexivity].
  destruct (_scaledPeriodEnd this) as [scaledPeriodEnd|]; [|reflexivity].
  destruct (lastEntry (timeline (_index this))) as [entry|] eqn:Hlast.
  - destruct (lastEntry_Some _ _ Hlast) as [Hlen _]. rewrite Hlen.
    unfold lastEntry in Hlast. unfold bind, read. simpl. rewrite Hlast. simpl.
    rewrite <- Qle_bool_iff, <- Qle_bool_false_iff.
    destruct (Qle_bool _ _); split; split; congruence.
  - apply lastEntry_None in Hlast. rewrite Hlast. reflexivity.
Qed.

(** C8, as stated, fails: the only entry of [pastPeriodEnd] ends at 20, ten
    seconds past the period end 10 and so not within a sixtieth of a second
    of it, and [isFinished()] answers [true]. *)
Lemma isFinished_past_period_end :
  outcome (fst (isFinished pastPeriodEnd)) = Normal true /\
  lastEntry (timeline (_index pastPeriodEnd)) = Some (mkSegment 0 20 0) /\
  ~ withinOneSixtieth 1
      (getIndexSegmentEnd (mkSegment 0 20 0) None (Some 10)) 10 /\
  ~ isFinished_within_tolerance pastPeriodEnd.
Proof.
  assert (Hfar : ~ withinOneSixtieth 1
            (getIndexSegmentEnd (mkSegment 0 20 0) None (Some 10)) 10).
  { unfold withinOneSixtieth. vm_compute. intro H. apply H. reflexivity. }
  repeat split; try reflexivity; try exact Hfar.
  unfold isFinished_within_tolerance. simpl.
  intros [H _]. apply Hfar. apply H. reflexivity.
Qed.

(** ** [checkDiscontinuity] on a timeline of fewer than two entries *)

Lemma getSegmentIndex_empty (index : ITimelineIndex) (start_ : Q) :
  timeline index = [] -> getSegmentIndex index start_ = ret 0%Z.
Proof.
  intro H. unfold getSegmentIndex. rewrite H. reflexivity.
Qed.

Lemma getSegmentIndex_single (index : ITimelineIndex) (start_ : Q)
    (entry : IIndexSegment) :
  timeline index = [entry] ->
  getSegmentIndex index start_ = mkEff (Normal 0%Z) [0%Z].
Proof.
  intro H. unfold getSegmentIndex. rewrite H. simpl.
  unfold bind, read, array_get. simpl.
  destruct (Qlt_bool (start entry) start_); reflexivity.
Qed.

(** C10. On an object whose timeline holds fewer than two entries,
    [checkDiscontinuity] returns -1 for every time, and every read of the
    timeline it makes is inside the timeline; on an empty timeline the
    floor search returns 0 without a read. *)
Theorem checkDiscontinuity_short_timeline (_time : Q)
    (this : TimelineRepresentationIndex) :
  (array_length (timeline (_index this)) < 2)%Z ->
  let result := fst (checkDiscontinuity _time this) in
  let this' := snd (checkDiscontinuity _time this) in
  outcome result = Normal (-1) /\
  inRange (array_length (timeline (_index this'))) (reads result) /\
  (forall index start_,
     timeline index = [] -> getSegmentIndex index start_ = mkEff (Normal 0%Z) []).
Proof.
  intros Hshort result this'.
  split; [|split]; [| |intros index start_; apply getSegmentIndex_empty].
  - subst result. unfold checkDiscontinuity. simpl.
    pose proof (_refreshTimeline_length this) as Hlen.
    destruct (Qle_bool _ 0); [reflexivity|].
    destruct (timeline (_index (_refreshTimeline this)))
      as [|entry [|entry' rest]] eqn:Htl.
    + rewrite (getSegmentIndex_empty _ _ Htl). reflexivity.
    + rewrite (getSegmentIndex_single _ _ _ Htl). reflexivity.
    + unfold array_length in Hlen, Hshort. simpl in Hlen. lia.
  - subst result this'. unfold checkDiscontinuity. simpl.
    pose proof (_refreshTimeline_length this) as Hlen.
    destruct (Qle_bool _ 0); [constructor|].
    destruct (timeline (_index (_refreshTimeline this)))
      as [|entry [|entry' rest]] eqn:Htl.
    + rewrite (getSegmentIndex_empty _ _ Htl). constructor.
    + rewrite (getSegmentIndex_single _ _ _ Htl). simpl.
      constructor; [|constructor]. unfold array_length. simpl. lia.
    + unfold array_length in Hlen, Hshort. simpl in Hlen. lia.
Qed.

Lemma checkDiscontinuity_short_timeline_witness :
  (array_length (timeline (_index pastPeriodEnd)) < 2)%Z /\
  outcome (fst (checkDiscontinuity 5 pastPeriodEnd)) = Normal (-1).
Proof.
  split; [reflexivity|].
  apply (checkDiscontinuity_short_timeline 5 pastPeriodEnd). reflexivity.
Defined.

(** ** The normalized timeline *)




Lemma chained_after (entry : IIndexSegment) (rest : list IIndexSegment) :
  chained (entry :: rest) ->
  Forall (fun later => entryEnd entry <= start later) rest.
Proof.
  revert entry. induction rest as [|next rest IH]; intros entry Hch.
  - constructor.
  - destruct Hch as [_ [Hnext Hrest]].
    constructor; [exact Hnext|].
    pose proof (IH next Hrest) as Hlater.
    destruct Hrest as [Hpos _].
    eapply Forall_impl; [|exact Hlater].
    intros later Hle. simpl in Hle. lra.
Qed.





(** ** The start of an entry without a declared start *)

Lemma fromParsedSToIndexSegment_first (item : S.t) (nextItem : option S.t)
    (timelineStart : Q) (entry : IIndexSegment) :
  fromParsedSToIndexSegment item None nextItem timelineStart = Some entry ->
  isNullish (S.start item) = true ->
  start entry = timelineStart.
Proof.
  unfold fromParsedSToIndexSegment. intros H Hnull. rewrite Hnull in H.
  destruct (isKnown _ && isKnown _ && _); [|discriminate].
  injection H as <-. reflexivity.
Qed.

(** C2, on the code. An [S] element without a start that follows a
    resolved entry of duration -1 is not left unresolved: its start is
    computed from the sentinel, [0 + (-1) * (0 + 1)], it is accepted, and
    the constructor stores it before the start of the entry it follows. *)
Theorem fromParsedSToIndexSegment_after_open_ended :
  fromParsedSToIndexSegment (S.mk None None (Some (Num 5)))
                            (Some (mkSegment 0 (-1) 0)) None 0
    = Some (mkSegment (add64 0 (mul64 (-1) (add64 0 1))) 5 0) /\
  add64 0 (mul64 (-1) (add64 0 1)) = -1 /\
  timeline (_index (constructor sampleCreateIndexURL 0 afterOpenEnded
                                sampleContext))
    = [mkSegment 0 (-1) 0; mkSegment (-1) 5 0].
Proof.
  evaluate.
Qed.

(** ** The floor search at the start of an entry *)

(** C7, on the code. With entries starting at 0, 10 and 20 and the target
    10, the search returns 0 although the entry at index 1 starts at 10,
    which is not after the target: the index returned is not the greatest
    one whose start is at or before the target. *)
Theorem getSegmentIndex_at_entry_start :
  outcome (getSegmentIndex contiguousThree 10) = Normal 0%Z /\
  array_get (timeline contiguousThree) 1 = Some (mkSegment 10 10 0) /\
  start (mkSegment 10 10 0) <= 10.
Proof.
  repeat split. discriminate.
Qed.

(** ** Completions of composed evaluations *)

Lemma outcome_bind {A B : Type} (m : Eff A) (k : A -> Eff B) (a : A) :
  outcome m = Normal a -> outcome (bind m k) = outcome (k a).
Proof.
  intro H. unfold bind. rewrite H. reflexivity.
Qed.

Lemma outcome_read_deref {A B : Type} (a : list A) (i : Z) (x : A)
    (k : A -> Eff B) :
  array_get a i = Some x ->
  outcome (item <- read a i ;; v <- deref item ;; k v) = outcome (k x).
Proof.
  intro H. unfold bind, read. simpl. rewrite H. reflexivity.
Qed.

Lemma read_deref {A B : Type} (a : list A) (i : Z) (x : A)
    (k : A -> Eff B) :
  array_get a i = Some x ->
  (item <- read a i ;; v <- deref item ;; k v)
  = mkEff (outcome (k x)) (i :: reads (k x)).
Proof.
  intro H. unfold bind, read. simpl. rewrite H. reflexivity.
Qed.

(** ** [checkDiscontinuity] between two entries *)

(** C3, as the code has it. When the floor search for the scaled time lands
    on an entry with a concrete duration that has a next entry,
    [checkDiscontinuity] returns the start of the next entry in seconds if
    the scaled time is positive, the gap between the end of the entry and
    the start of the next one is positive, the scaled time is at or after
    the start of the entry, and the end of the entry minus the scaled time
    is less than one timescale unit (so also for a time inside the gap);
    otherwise it returns -1. *)
Theorem checkDiscontinuity_spec (_time : Q)
    (this : TimelineRepresentationIndex) (segmentIndex : Z)
    (timelineItem next : IIndexSegment) :
  let index := _index (_refreshTimeline this) in
  let scaledTime := toIndexTime _time index in
  outcome (getSegmentIndex index scaledTime) = Normal segmentIndex ->
  array_get (timeline index) segmentIndex = Some timelineItem ->
  array_get (timeline index) (segmentIndex + 1) = Some next ->
  ~ duration timelineItem == -1 ->
  let result := outcome (fst (checkDiscontinuity _time this)) in
  (inDiscontinuity timelineItem next (_scaledPeriodEnd this) scaledTime
                   (timescale index) ->
   result = Normal (fromIndexTime (start next) index)) /\
  (~ inDiscontinuity timelineItem next (_scaledPeriodEnd this) scaledTime
                     (timescale index) ->
   result = Normal (-1)).
Proof.
  intros index scaledTime Hsearch Hitem Hnext Hduration result.
  destruct (_refreshTimeline_fields this) as [_ [Hend _]].
  assert (Hguard : ((segmentIndex <? 0)
                    || (segmentIndex >=? array_length (timeline index) - 1))%Z
                   = false).
  { pose proof (array_get_Some_range _ _ _ Hitem) as Hin.
    pose proof (array_get_Some_range _ _ _ Hnext) as Hin'.
    apply orb_false_iff. rewrite Z.geb_leb.
    split; [apply Z.ltb_ge | apply Z.leb_gt]; lia. }
  assert (Hconcrete : Qeq_bool (duration timelineItem) (-1) = false).
  { destruct (Qeq_bool _ _) eqn:E; [|reflexivity].
    apply Qeq_bool_iff in E. contradiction. }
  subst result. unfold checkDiscontinuity. cbn [fst].
  fold index. fold scaledTime. rewrite Hend.
  unfold inDiscontinuity.
  destruct (Qle_bool scaledTime 0) eqn:Hzero.
  - apply Qle_bool_iff in Hzero. split; [|reflexivity].
    intros [Hpos _]. exfalso. apply (Qlt_not_le _ _ Hpos Hzero).
  - apply Qle_bool_false_iff in Hzero.
    rewrite (outcome_bind _ _ _ Hsearch), Hguard.
    rewrite (outcome_read_deref _ _ _ _ Hitem), Hconcrete.
    unfold bind, read. cbn [outcome reads]. rewrite Hnext.
    destruct (Qlt_bool _ (start next)) eqn:Hgap; cbn [andb].
    + destruct (Qle_bool (start timelineItem) scaledTime) eqn:Hup; cbn [andb].
      * destruct (Qlt_bool _ (timescale index)) eqn:Hnear; cbn [outcome ret].
        -- split; [reflexivity|]. intro Hnot. exfalso. apply Hnot.
           apply Qlt_bool_iff in Hgap, Hnear. apply Qle_bool_iff in Hup.
           auto.
        -- split; [|reflexivity]. intros [_ [_ [_ Hlt]]].
           apply Qlt_bool_iff in Hlt. congruence.
      * split; [|reflexivity]. intros [_ [_ [Hle _]]].
        apply Qle_bool_iff in Hle. congruence.
    + split; [|reflexivity]. intros [_ [Hlt _]].
      apply Qlt_bool_iff in Hlt. congruence.
Qed.

Lemma checkDiscontinuity_spec_witness :
  outcome (fst (checkDiscontinuity (19 # 2) gapAfterTen))
    = Normal (fromIndexTime 20 (_index gapAfterTen)) /\
  outcome (fst (checkDiscontinuity 5 gapAfterTen)) = Normal (-1).
Proof.
  split.
  - apply (checkDiscontinuity_spec (19 # 2) gapAfterTen 0
             (mkSegment 0 10 0) (mkSegment 20 10 0));
      try reflexivity; try discriminate.
    repeat split; try reflexivity; vm_compute; discriminate.
  - apply (checkDiscontinuity_spec 5 gapAfterTen 0
             (mkSegment 0 10 0) (mkSegment 20 10 0));
      try reflexivity; try discriminate.
    intros [_ [_ [_ Hnear]]]. vm_compute in Hnear. discriminate.
Defined.

(** C3, as stated, fails: at 15 seconds the search lands on the entry from
    0 to 10, the time does not lie in its run, and [checkDiscontinuity]
    returns 20, the start of the next entry, not -1. *)
Lemma checkDiscontinuity_inside_gap :
  let index := _index gapAfterTen in
  outcome (getSegmentIndex index (toIndexTime 15 index)) = Normal 0%Z /\
  array_get (timeline index) 0 = Some (mkSegment 0 10 0) /\
  array_get (timeline index) 1 = Some (mkSegment 20 10 0) /\
  ~ inDiscontinuity_as_stated (mkSegment 0 10 0) (mkSegment 20 10 0)
      (_scaledPeriodEnd gapAfterTen) (toIndexTime 15 index)
      (timescale index) /\
  outcome (fst (checkDiscontinuity 15 gapAfterTen)) = Normal 20 /\
  ~ 20 == -1.
Proof.
  repeat split; try discriminate.
  intros [_ [[_ Hin] _]]. vm_compute in Hin. discriminate.
Qed.

(** ** [shouldRefresh] and the theoretical last position *)

Lemma _refreshTimeline_single (this : TimelineRepresentationIndex)
    (entry : IIndexSegment) :
  timeline (_index this) = [entry] ->
  timeline (_index (_refreshTimeline this)) = [entry] \/
  timeline (_index (_refreshTimeline this)) = [].
Proof.
  intro Htl. unfold _refreshTimeline.
  destruct (getMinimumBound _); [|left; exact Htl].
  cbn [withTimeline _index timeline]. rewrite Htl.
  cbn [clearTimelineFromPosition].
  destruct (Qle_bool _ _); [right | left]; reflexivity.
Qed.

Lemma theoretical_position_of_scenario (now : Q)
    (this : TimelineRepresentationIndex) :
  _isDynamic this = true ->
  timeline (_index this) = [mkSegment 0 4 0] ->
  timescale (_index this) == 1 ->
  now - _lastUpdate this == 9000 ->
  exists position,
    outcome (_getTheoriticalLastPosition now this) = Normal (Some position) /\
    position == 12.
Proof.
  intros Hdyn Htl Hts Hdiff.
  assert (HTS : mul64 (div64 (sub64 now (_lastUpdate this)) 1000)
                      (timescale (_index this)) = 9).
  { unfold sub64. rewrite Hts, Hdiff. vm_compute. reflexivity. }
  exists (add64 (mul64 (floor64 (div64 9 4)) 4)
                (getIndexSegmentEnd (mkSegment 0 4 0) None
                                    (_scaledPeriodEnd this))).
  split; [|vm_compute; reflexivity].
  unfold _getTheoriticalLastPosition. rewrite Htl, Hdyn.
  change (array_length [mkSegment 0 4 0] <=? 0)%Z with false.
  cbv iota.
  rewrite (read_deref _ _ (mkSegment 0 4 0)) by reflexivity.
  cbv beta iota. change (negb true) with false. cbv iota.
  change (duration (mkSegment 0 4 0)) with 4.
  rewrite HTS.
  assert (E : Qlt_bool 9 4 = false) by (vm_compute; reflexivity).
  rewrite E. reflexivity.
Qed.

(** [shouldRefresh] on a dynamic index whose timeline is not empty after
    the eviction. *)
Lemma shouldRefresh_dynamic (now _up to : Q)
    (this : TimelineRepresentationIndex) (lastTimelineElt : IIndexSegment) :
  let this' := _refreshTimeline this in
  _isDynamic this = true ->
  lastEntry (timeline (_index this')) = Some lastTimelineElt ->
  outcome (fst (shouldRefresh now _up to this)) =
  if Qlt_bool (mul64 to (timescale (_index this')))
              (getIndexSegmentEnd lastTimelineElt None (_scaledPeriodEnd this'))
  then Normal false
  else outcome (lastTheoriticalPosition <-
                  _getTheoriticalLastPosition now this' ;;
                match lastTheoriticalPosition with
                | None => ret true
                | Some position =>
                  ret (Qlt_bool (getIndexSegmentEnd lastTimelineElt None
                                   (_scaledPeriodEnd this')) position)
                end).
Proof.
  intros this' Hdyn Hlast.
  destruct (_refreshTimeline_fields this) as [Hdyn' _].
  unfold shouldRefresh. cbn [fst]. fold this'.
  unfold this' at 1. rewrite Hdyn', Hdyn. cbn [negb].
  destruct (lastEntry_Some _ _ Hlast) as [Hlen _]. rewrite Hlen.
  unfold lastEntry in Hlast.
  rewrite (outcome_read_deref _ _ _ _ Hlast).
  destruct (Qlt_bool _ _); reflexivity.
Qed.

Lemma shouldRefresh_of_scenario (now _up to : Q)
    (this : TimelineRepresentationIndex) :
  _isDynamic this = true ->
  timeline (_index this) = [mkSegment 0 4 0] ->
  timescale (_index this) == 1 ->
  now - _lastUpdate this == 9000 ->
  Qlt_bool (mul64 to 1) 4 = false ->
  outcome (fst (shouldRefresh now _up to this)) = Normal true.
Proof.
  intros Hdyn Htl Hts Hdiff Hto.
  destruct (_refreshTimeline_fields this) as [Hdyn' [_ [Hlu [Hts' _]]]].
  destruct (_refreshTimeline_single _ _ Htl) as [Hkept | Hgone].
  - rewrite (shouldRefresh_dynamic now _up to this (mkSegment 0 4 0) Hdyn)
      by (rewrite Hkept; reflexivity).
    assert (Hend : forall scaledPeriodEnd,
               getIndexSegmentEnd (mkSegment 0 4 0) None scaledPeriodEnd = 4)
      by (intro; vm_compute; reflexivity).
    rewrite Hend, Hts', Hts, Hto.
    + destruct (theoretical_position_of_scenario now (_refreshTimeline this))
        as [position [Hposition Htwelve]];
        [congruence | exact Hkept | rewrite Hts'; exact Hts
        | rewrite Hlu; exact Hdiff |].
      rewrite (outcome_bind _ _ _ Hposition). cbn [ret outcome].
      f_equal. apply Qlt_bool_iff. rewrite Htwelve. reflexivity.
  - unfold shouldRefresh. cbn [fst]. rewrite Hdyn', Hdyn, Hgone. reflexivity.
Qed.

(** C4, as the code has it. On a dynamic index whose only entry is
    [{start: 0, duration: 4, repeatCount: 0}] at timescale 1, 9 seconds
    after the last update, the theoretical last position is 12, the end 4
    of the entry plus 2 extrapolated segments of duration 4, and
    [shouldRefresh(_, 7)] and [shouldRefresh(_, 9)] both return [true]. *)
Theorem shouldRefresh_scenario (now _up : Q)
    (this : TimelineRepresentationIndex) :
  _isDynamic this = true ->
  timeline (_index this) = [mkSegment 0 4 0] ->
  timescale (_index this) == 1 ->
  now - _lastUpdate this == 9000 ->
  (exists position,
     outcome (_getTheoriticalLastPosition now this) = Normal (Some position) /\
     position == 12) /\
  outcome (fst (shouldRefresh now _up 7 this)) = Normal true /\
  outcome (fst (shouldRefresh now _up 9 this)) = Normal true.
Proof.
  intros Hdyn Htl Hts Hdiff. split; [|split].
  - apply theoretical_position_of_scenario; assumption.
  - apply shouldRefresh_of_scenario; try assumption. vm_compute. reflexivity.
  - apply shouldRefresh_of_scenario; try assumption. vm_compute. reflexivity.
Qed.

Lemma shouldRefresh_scenario_witness :
  outcome (fst (shouldRefresh 9000 0 7 fourSecondsLive)) = Normal true /\
  outcome (fst (shouldRefresh 9000 0 9 fourSecondsLive)) = Normal true.
Proof.
  apply (shouldRefresh_scenario 9000 0 fourSecondsLive); reflexivity.
Defined.

(** C4, as stated, fails: in the scenario the theoretical last position is
    12, not 8, and [shouldRefresh(_, 7)] returns [true], not [false]. *)
Lemma shouldRefresh_scenario_extrapolates :
  _isDynamic fourSecondsLive = true /\
  timeline (_index fourSecondsLive) = [mkSegment 0 4 0] /\
  timescale (_index fourSecondsLive) = 1 /\
  (9000 - _lastUpdate fourSecondsLive) / 1000 == 9 /\
  outcome (_getTheoriticalLastPosition 9000 fourSecondsLive)
    = Normal (Some 12) /\
  ~ 12 == 8 /\
  outcome (fst (shouldRefresh 9000 0 7 fourSecondsLive)) = Normal true /\
  outcome (fst (shouldRefresh 9000 0 7 fourSecondsLive)) <> Normal false.
Proof.
  evaluate.
Qed.

Lemma _getTheoriticalLastPosition_dynamic (now : Q)
    (this : TimelineRepresentationIndex) (last : IIndexSegment) :
  _isDynamic this = true ->
  lastEntry (timeline (_index this)) = Some last ->
  _getTheoriticalLastPosition now this =
  mkEff (Normal (Some
           (if Qlt_bool (timeDiffTS now this) (duration last)
            then getIndexSegmentEnd last None (_scaledPeriodEnd this)
            else add64
                   (mul64 (floor64 (div64 (timeDiffTS now this)
                                          (duration last)))
                          (duration last))
                   (getIndexSegmentEnd last None (_scaledPeriodEnd this)))))
        [(array_length (timeline (_index this)) - 1)%Z].
Proof.
  intros Hdyn Hlast. unfold _getTheoriticalLastPosition, timeDiffTS.
  destruct (lastEntry_Some _ _ Hlast) as [_ Hlen]. rewrite Hlen.
  unfold lastEntry in Hlast. rewrite (read_deref _ _ _ _ Hlast), Hdyn.
  cbv beta iota. change (negb true) with false. cbv iota.
  destruct (Qlt_bool _ _); reflexivity.
Qed.




(** ** Which operations make the eviction pass *)

Lemma _refreshTimeline_settled (this : TimelineRepresentationIndex) :
  _refreshTimeline (settled this) = settled this.
Proof. reflexivity. Qed.



(** ** What the floor search returns *)

Lemma ushr1_half (x : Z) :
  (0 <= x < 2 ^ 32)%Z -> ushr1 x = (x / 2)%Z.
Proof.
  intro H. unfold ushr1.
  rewrite Z.mod_small by exact H.
  rewrite Z.shiftr_div_pow2 by lia. reflexivity.
Qed.

Lemma ascendingByStart_nth (timeline : list IIndexSegment) :
  ascendingByStart timeline ->
  forall (i j : nat) (a b : IIndexSegment),
    (i < j)%nat ->
    nth_error timeline i = Some a ->
    nth_error timeline j = Some b ->
    start a < start b.
Proof.
  induction 1 as [|first rest Hfirst Hrest IH]; intros i j a b Hij Ha Hb.
  - destruct i; discriminate.
  - destruct j as [|j']; [lia|].
    destruct i as [|i']; simpl in Ha, Hb.
    + injection Ha as <-.
      apply nth_error_In in Hb.
      rewrite Forall_forall in Hfirst. apply Hfirst, Hb.
    + apply (IH i' j'); [lia | assumption | assumption].
Qed.

Lemma ascendingByStart_get (timeline : list IIndexSegment) (i j : Z)
    (a b : IIndexSegment) :
  ascendingByStart timeline ->
  (i <= j)%Z ->
  array_get timeline i = Some a ->
  array_get timeline j = Some b ->
  start a <= start b.
Proof.
  intros Hasc Hij Ha Hb.
  pose proof (array_get_Some_range _ _ _ Ha) as Hi.
  pose proof (array_get_Some_range _ _ _ Hb) as Hj.
  unfold array_get in Ha, Hb.
  destruct (i <? 0)%Z eqn:Ei; [discriminate|].
  destruct (j <? 0)%Z eqn:Ej; [discriminate|].
  destruct (Z.eq_dec i j) as [->|Hne].
  - rewrite Ha in Hb. injection Hb as <-. apply Qle_refl.
  - apply Qlt_le_weak.
    apply (ascendingByStart_nth timeline Hasc (Z.to_nat i) (Z.to_nat j));
      [lia | assumption | assumption].
Qed.

Lemma array_get_in_range {A : Type} (a : list A) (i : Z) :
  (0 <= i < array_length a)%Z -> exists x, array_get a i = Some x.
Proof.
  unfold array_get, array_length. intro H.
  destruct (i <? 0)%Z eqn:E; [apply Z.ltb_lt in E; lia|].
  destruct (nth_error a (Z.to_nat i)) as [x|] eqn:Hnth; [eauto|].
  apply nth_error_None in Hnth. lia.
Qed.

(** The loop stops, reads inside the timeline only, and returns the number
    of entries that start before the target. *)
Lemma getSegmentIndex_loop_spec (timeline : list IIndexSegment) (start_ : Q) :
  ascendingByStart timeline ->
  (array_length timeline <= 2 ^ 31)%Z ->
  forall (fuel : nat) (low high : Z),
    (0 <= low <= high)%Z ->
    (high <= array_length timeline)%Z ->
    (high - low <= Z.of_nat fuel)%Z ->
    (forall j entry, (j < low)%Z -> array_get timeline j = Some entry ->
                     start entry < start_) ->
    (forall j entry, (high <= j)%Z -> array_get timeline j = Some entry ->
                     start_ <= start entry) ->
    exists result,
      outcome (getSegmentIndex_loop fuel timeline start_ low high)
        = Normal result /\
      inRange (array_length timeline)
              (reads (getSegmentIndex_loop fuel timeline start_ low high)) /\
      (0 <= result <= array_length timeline)%Z /\
      (forall j entry, (j < result)%Z -> array_get timeline j = Some entry ->
                       start entry < start_) /\
      (forall j entry, (result <= j)%Z -> array_get timeline j = Some entry ->
                       start_ <= start entry).
Proof.
  intros Hasc Hmax.
  induction fuel as [|fuel IH]; intros low high Hlow Hhigh Hfuel Hbelow Habove.
  - assert (low = high) by lia. subst high.
    simpl. rewrite Z.ltb_irrefl.
    exists low. repeat split; try lia; try constructor; assumption.
  - simpl. destruct (low <? high)%Z eqn:Hlt.
    + apply Z.ltb_lt in Hlt.
      assert (Hmid : ushr1 (low + high) = ((low + high) / 2)%Z)
        by (apply ushr1_half; lia).
      rewrite Hmid. set (mid := ((low + high) / 2)%Z).
      assert (Hrange : (low <= mid < high)%Z).
      { subst mid. split.
        - apply Z.div_le_lower_bound; lia.
        - apply Z.div_lt_upper_bound; lia. }
      destruct (array_get_in_range timeline mid) as [segment Hsegment];
        [lia|].
      rewrite (read_deref _ _ _ _ Hsegment). cbn [outcome reads].
      destruct (Qlt_bool (start segment) start_) eqn:Hcmp.
      * apply Qlt_bool_iff in Hcmp.
        destruct (IH (mid + 1)%Z high) as [result [Hout [Hreads Hres]]];
          try lia; try assumption.
        { intros j entry Hj Hentry.
          apply Qle_lt_trans with (start segment); [|exact Hcmp].
          apply (ascendingByStart_get timeline j mid); try assumption. lia. }
        exists result. split; [exact Hout|]. split; [|exact Hres].
        constructor; [lia|]. exact Hreads.
      * apply Qlt_bool_false_iff in Hcmp.
        destruct (IH low mid) as [result [Hout [Hreads Hres]]];
          try lia; try assumption.
        { intros j entry Hj Hentry.
          apply Qle_trans with (start segment); [exact Hcmp|].
          apply (ascendingByStart_get timeline mid j); try assumption. }
        exists result. split; [exact Hout|]. split; [|exact Hres].
        constructor; [lia|]. exact Hreads.
    + apply Z.ltb_ge in Hlt. assert (low = high) by lia. subst high.
      exists low. repeat split; try lia; try constructor; assumption.
Qed.

(** X1. On a timeline of at most 2^31 entries sorted by start, the search
    stops, reads inside the timeline only, and returns an index of the
    timeline (0 on an empty one): the greatest index whose entry starts
    strictly before the target, or 0 when no entry does. *)
Lemma getSegmentIndex_greatest_before (index : ITimelineIndex) (start_ : Q) :
  ascendingByStart (timeline index) ->
  (array_length (timeline index) <= 2 ^ 31)%Z ->
  exists result,
    outcome (getSegmentIndex index start_) = Normal result /\
    inRange (array_length (timeline index))
            (reads (getSegmentIndex index start_)) /\
    (0 <= result)%Z /\
    (result < array_length (timeline index) \/
     timeline index = [] /\ result = 0)%Z /\
    (forall entry, (0 < result)%Z ->
                   array_get (timeline index) result = Some entry ->
                   start entry < start_) /\
    (forall j entry, (result < j)%Z ->
                     array_get (timeline index) j = Some entry ->
                     start_ <= start entry) /\
    ((forall entry, In entry (timeline index) -> start_ <= start entry) ->
     result = 0%Z).
Proof.
  intros Hasc Hmax. unfold getSegmentIndex.
  destruct (getSegmentIndex_loop_spec (timeline index) start_ Hasc Hmax
              (List.length (timeline index)) 0 (array_length (timeline index)))
    as [low [Hout [Hreads [Hrange [Hbelow Habove]]]]];
    try (unfold array_length; lia).
  - intros j entry Hj Hentry.
    apply array_get_Some_range in Hentry. lia.
  - intros j entry Hj Hentry.
    apply array_get_Some_range in Hentry. lia.
  - exists (if (low >? 0)%Z then (low - 1)%Z else low).
    split; [rewrite (outcome_bind _ _ _ Hout); reflexivity|].
    split.
    { unfold bind. rewrite Hout. cbn [reads ret]. rewrite app_nil_r.
      exact Hreads. }
    destruct (low >? 0)%Z eqn:Hpos.
    + apply Z.gtb_lt in Hpos.
      split; [lia|]. split; [left; lia|]. split; [|split].
      * intros entry _ Hentry. apply (Hbelow (low - 1)%Z); [lia|exact Hentry].
      * intros j entry Hj Hentry. apply (Habove j); [lia|exact Hentry].
      * intro Hall.
        destruct (array_get_in_range (timeline index) (low - 1)%Z)
          as [entry Hentry]; [lia|].
        assert (Hlt : start entry < start_)
          by (apply (Hbelow (low - 1)%Z); [lia | exact Hentry]).
        assert (Hin : In entry (timeline index)).
        { unfold array_get in Hentry.
          destruct (low - 1 <? 0)%Z; [discriminate|].
          eapply nth_error_In; eassumption. }
        exfalso. apply (Qlt_not_le _ _ Hlt (Hall _ Hin)).
    + assert (low = 0%Z) by (rewrite Z.gtb_ltb in Hpos; apply Z.ltb_ge in Hpos; lia).
      subst low. split; [lia|]. split; [|split; [|split]].
      * destruct (timeline index) as [|entry rest]; [right; auto|].
        left. unfold array_length. simpl. lia.
      * intros entry Hpos'. lia.
      * intros j entry Hj Hentry. apply (Habove j); [lia|exact Hentry].
      * reflexivity.
Qed.

(** On any timeline, sorted or not, the loop stops and reads inside the
    timeline only. *)
Lemma getSegmentIndex_loop_returns (timeline : list IIndexSegment)
    (start_ : Q) :
  (array_length timeline <= 2 ^ 31)%Z ->
  forall (fuel : nat) (low high : Z),
    (0 <= low <= high)%Z ->
    (high <= array_length timeline)%Z ->
    (high - low <= Z.of_nat fuel)%Z ->
    exists result,
      outcome (getSegmentIndex_loop fuel timeline start_ low high)
        = Normal result /\
      (low <= result <= high)%Z /\
      inRange (array_length timeline)
              (reads (getSegmentIndex_loop fuel timeline start_ low high)).
Proof.
  intro Hmax.
  induction fuel as [|fuel IH]; intros low high Hlow Hhigh Hfuel.
  - assert (low = high) by lia. subst high.
    simpl. rewrite Z.ltb_irrefl.
    exists low. repeat split; try lia. constructor.
  - simpl. destruct (low <? high)%Z eqn:Hlt.
    + apply Z.ltb_lt in Hlt.
      rewrite (ushr1_half (low + high)) by lia.
      set (mid := ((low + high) / 2)%Z).
      assert (Hrange : (low <= mid < high)%Z).
      { subst mid. split.
        - apply Z.div_le_lower_bound; lia.
        - apply Z.div_lt_upper_bound; lia. }
      destruct (array_get_in_range timeline mid) as [segment Hsegment];
        [lia|].
      rewrite (read_deref _ _ _ _ Hsegment). cbn [outcome reads].
      destruct (Qlt_bool (start segment) start_).
      * destruct (IH (mid + 1)%Z high) as [result [Hout [Hres Hreads]]];
          try lia.
        exists result. repeat split; try lia; try exact Hout.
        constructor; [lia | exact Hreads].
      * destruct (IH low mid) as [result [Hout [Hres Hreads]]]; try lia.
        exists result. repeat split; try lia; try exact Hout.
        constructor; [lia | exact Hreads].
    + exists low. apply Z.ltb_ge in Hlt. repeat split; try lia. constructor.
Qed.

(** The floor search returns on every timeline of at most 2^31 entries: it
    neither runs on nor reads outside the timeline, and the index it
    returns is that of an entry unless the timeline is empty. *)
Lemma getSegmentIndex_returns (index : ITimelineIndex) (start_ : Q) :
  (array_length (timeline index) <= 2 ^ 31)%Z ->
  exists result,
    outcome (getSegmentIndex index start_) = Normal result /\
    (0 <= result)%Z /\
    (result < array_length (timeline index) \/ timeline index = [])%Z /\
    inRange (array_length (timeline index))
            (reads (getSegmentIndex index start_)).
Proof.
  intro Hmax. unfold getSegmentIndex.
  destruct (getSegmentIndex_loop_returns (timeline index) start_ Hmax
              (List.length (timeline index)) 0 (array_length (timeline index)))
    as [low [Hout [Hrange Hreads]]]; try (unfold array_length; lia).
  exists (if (low >? 0)%Z then (low - 1)%Z else low).
  split; [rewrite (outcome_bind _ _ _ Hout); reflexivity|].
  assert (Hreads' : inRange (array_length (timeline index))
            (reads (low' <- getSegmentIndex_loop
                              (List.length (timeline index)) (timeline index)
                              start_ 0 (array_length (timeline index)) ;;
                    ret (if (low' >? 0)%Z then (low' - 1)%Z else low')))).
  { unfold bind. rewrite Hout. cbn [reads ret]. rewrite app_nil_r.
    exact Hreads. }
  destruct (low >? 0)%Z eqn:Hpos.
  - apply Z.gtb_lt in Hpos. split; [lia|]. split; [left; lia|exact Hreads'].
  - rewrite Z.gtb_ltb in Hpos. apply Z.ltb_ge in Hpos.
    assert (low = 0%Z) by lia. subst low.
    split; [lia|]. split; [|exact Hreads'].
    destruct (timeline index) as [|entry rest]; [right; reflexivity|].
    left. unfold array_length. simpl. lia.
Qed.

(** ** What [checkDiscontinuity] can return *)

Lemma bind_Normal {A B : Type} (m : Eff A) (k : A -> Eff B) (a : A) :
  outcome m = Normal a ->
  bind m k = mkEff (outcome (k a)) (reads m ++ reads (k a)).
Proof.
  intro H. unfold bind. rewrite H. reflexivity.
Qed.

Lemma inRange_app (n : Z) (l l' : list Z) :
  inRange n l -> inRange n l' -> inRange n (l ++ l').
Proof.
  intros H H'. apply Forall_app. split; assumption.
Qed.

(** The ways [checkDiscontinuity] ends on a timeline of at most 2^31
    entries. *)
Lemma checkDiscontinuity_cases (_time : Q)
    (this : TimelineRepresentationIndex) :
  (array_length (timeline (_index this)) <= 2 ^ 31)%Z ->
  let this' := _refreshTimeline this in
  let result := fst (checkDiscontinuity _time this) in
  inRange (array_length (timeline (_index this'))) (reads result) /\
  (outcome result = Normal (-1) \/
   exists i entry next,
     array_get (timeline (_index this')) i = Some entry /\
     array_get (timeline (_index this')) (i + 1) = Some next /\
     getIndexSegmentEnd entry (Some next) (_scaledPeriodEnd this')
       < start next /\
     outcome result = Normal (fromIndexTime (start next) (_index this'))).
Proof.
  intros Hmax this' result.
  assert (Hmax' : (array_length (timeline (_index this')) <= 2 ^ 31)%Z).
  { pose proof (_refreshTimeline_length this). subst this'. lia. }
  subst result. unfold checkDiscontinuity. cbn [fst]. fold this'.
  destruct (Qle_bool _ 0).
  { split; [constructor | left; reflexivity]. }
  destruct (getSegmentIndex_returns (_index this')
              (toIndexTime _time (_index this')) Hmax')
    as [i [Hout [Hi [_ Hreads]]]].
  rewrite (bind_Normal _ _ _ Hout). cbn [outcome reads].
  destruct ((i <? 0) || (i >=? array_length (timeline (_index this')) - 1))%Z
    eqn:Hguard.
  { cbn [ret outcome reads]. rewrite app_nil_r.
    split; [exact Hreads | left; reflexivity]. }
  apply orb_false_iff in Hguard. destruct Hguard as [_ Hlast].
  rewrite Z.geb_leb in Hlast. apply Z.leb_gt in Hlast.
  destruct (array_get_in_range (timeline (_index this')) i)
    as [entry Hentry]; [lia|].
  destruct (array_get_in_range (timeline (_index this')) (i + 1)%Z)
    as [next Hnext]; [lia|].
  rewrite (read_deref _ _ _ _ Hentry). cbn [outcome reads].
  destruct (Qeq_bool (duration entry) (-1)).
  { cbn [ret outcome reads]. split; [|left; reflexivity].
    apply inRange_app; [exact Hreads|]. constructor; [lia|constructor]. }
  unfold bind, read. cbn [outcome reads]. rewrite Hnext.
  assert (Hin : inRange (array_length (timeline (_index this')))
                        (reads (getSegmentIndex (_index this')
                                  (toIndexTime _time (_index this')))
                         ++ [i; (i + 1)%Z])).
  { apply inRange_app; [exact Hreads|].
    constructor; [lia|]. constructor; [lia|constructor]. }
  destruct (Qlt_bool _ (start next)) eqn:Hgap; cbn [andb].
  - destruct (Qle_bool (start entry) _ && Qlt_bool _ _);
      cbn [ret outcome reads]; (split; [exact Hin|]).
    + right. exists i, entry, next. apply Qlt_bool_iff in Hgap. auto.
    + left. reflexivity.
  - cbn [ret outcome reads]. split; [exact Hin | left; reflexivity].
Qed.

(** X2. On an object whose timeline holds at most 2^31 entries,
    [checkDiscontinuity] returns for every time: it neither throws nor runs
    on, every read of the timeline is inside the timeline left by the
    eviction, and the value is -1 or the start, in seconds, of an entry of
    that timeline. *)
Theorem checkDiscontinuity_safe (_time : Q)
    (this : TimelineRepresentationIndex) :
  (array_length (timeline (_index this)) <= 2 ^ 31)%Z ->
  let this' := _refreshTimeline this in
  let result := fst (checkDiscontinuity _time this) in
  inRange (array_length (timeline (_index this'))) (reads result) /\
  exists value,
    outcome result = Normal value /\
    (value = -1 \/
     exists next, In next (timeline (_index this')) /\
                  value = fromIndexTime (start next) (_index this')).
Proof.
  intros Hmax this' result.
  destruct (checkDiscontinuity_cases _time this Hmax) as [Hreads Hcases].
  split; [exact Hreads|].
  destruct Hcases as [Hnone | [i [entry [next [_ [Hnext [_ Hsome]]]]]]].
  - exists (-1). split; [exact Hnone | left; reflexivity].
  - exists (fromIndexTime (start next) (_index this')).
    split; [exact Hsome|]. right. exists next. split; [|reflexivity].
    unfold array_get in Hnext. destruct (i + 1 <? 0)%Z; [discriminate|].
    eapply nth_error_In. exact Hnext.
Qed.

Lemma checkDiscontinuity_safe_witness :
  exists value,
    outcome (fst (checkDiscontinuity (19 # 2) gapAfterTen)) = Normal value.
Proof.
  destruct (checkDiscontinuity_safe (19 # 2) gapAfterTen) as [_ [value [H _]]].
  - discriminate.
  - exists value. exact H.
Defined.

(** X3. On a timeline without a gap after any entry, [checkDiscontinuity]
    returns -1 for every time. *)
Theorem checkDiscontinuity_gapless (_time : Q)
    (this : TimelineRepresentationIndex) :
  (array_length (timeline (_index this)) <= 2 ^ 31)%Z ->
  gapless (timeline (_index (_refreshTimeline this)))
          (_scaledPeriodEnd (_refreshTimeline this)) ->
  outcome (fst (checkDiscontinuity _time this)) = Normal (-1).
Proof.
  intros Hmax Hgapless.
  destruct (checkDiscontinuity_cases _time this Hmax) as [_ Hcases].
  destruct Hcases as [Hnone | [i [entry [next [Hentry [Hnext [Hgap _]]]]]]].
  - exact Hnone.
  - exfalso. apply (Qlt_not_le _ _ Hgap). apply (Hgapless i); assumption.
Qed.

Lemma contiguousLive_gapless :
  gapless (timeline (_index (_refreshTimeline contiguousLive)))
          (_scaledPeriodEnd (_refreshTimeline contiguousLive)).
Proof.
  intros i entry next Hentry Hnext.
  pose proof (array_get_Some_range _ _ _ Hnext) as Hrange.
  pose proof (array_get_Some_range _ _ _ Hentry) as Hrange'.
  change (array_length (timeline (_index (_refreshTimeline contiguousLive))))
    with 3%Z in Hrange, Hrange'.
  assert (Hi : i = 0%Z \/ i = 1%Z) by lia.
  destruct Hi as [-> | ->];
    vm_compute in Hentry, Hnext;
    injection Hentry as <-; injection Hnext as <-;
    vm_compute; discriminate.
Qed.

Lemma checkDiscontinuity_gapless_witness :
  outcome (fst (checkDiscontinuity (19 # 2) contiguousLive)) = Normal (-1).
Proof.
  apply (checkDiscontinuity_gapless (19 # 2) contiguousLive).
  - discriminate.
  - exact contiguousLive_gapless.
Defined.

(** ** When [shouldRefresh] asks for a refresh *)

Lemma timeDiffTS_refreshed (now : Q) (this : TimelineRepresentationIndex) :
  timeDiffTS now (_refreshTimeline this) = timeDiffTS now this.
Proof.
  destruct (_refreshTimeline_fields this) as [_ [_ [Hlu [Hts _]]]].
  unfold timeDiffTS. rewrite Hlu, Hts. reflexivity.
Qed.

(** X4. On a dynamic index whose timeline is not empty after the eviction,
    [shouldRefresh(up, to)] returns [true] only when the product
    [to * timescale] it computes is not before the end of the last entry
    and the time passed since the last update, in index time as it computes
    it, is at least the duration of the last entry: it asks for no refresh
    for a time that is covered, nor before one more segment can have been
    published. *)
Theorem shouldRefresh_when (now _up to : Q)
    (this : TimelineRepresentationIndex) (last : IIndexSegment) :
  _isDynamic this = true ->
  lastEntry (timeline (_index (_refreshTimeline this))) = Some last ->
  exists answer,
    outcome (fst (shouldRefresh now _up to this)) = Normal answer /\
    (answer = true ->
     getIndexSegmentEnd last None (_scaledPeriodEnd this)
       <= mul64 to (timescale (_index this)) /\
     duration last <= timeDiffTS now this).
Proof.
  intros Hdyn Hlast.
  destruct (_refreshTimeline_fields this) as [Hdyn' [Hend [_ [Hts _]]]].
  rewrite (shouldRefresh_dynamic now _up to this last Hdyn Hlast).
  rewrite (_getTheoriticalLastPosition_dynamic now (_refreshTimeline this) last)
    by congruence.
  rewrite timeDiffTS_refreshed, Hend, Hts.
  set (lastTime := getIndexSegmentEnd last None (_scaledPeriodEnd this)).
  destruct (Qlt_bool (mul64 to (timescale (_index this))) lastTime)
    eqn:Hcovered.
  - exists false. split; [reflexivity | discriminate].
  - apply Qlt_bool_false_iff in Hcovered.
    unfold bind. cbn [outcome ret].
    destruct (Qlt_bool (timeDiffTS now this) (duration last)) eqn:Hshort.
    + exists (Qlt_bool lastTime lastTime). split; [reflexivity|].
      assert (Hsame : Qlt_bool lastTime lastTime = false)
        by (apply Qlt_bool_false_iff, Qle_refl).
      rewrite Hsame. discriminate.
    + apply Qlt_bool_false_iff in Hshort.
      eexists. split; [reflexivity|]. intros _. split; assumption.
Qed.

Lemma shouldRefresh_when_witness :
  exists answer,
    outcome (fst (shouldRefresh 9000 0 7 fourSecondsLive)) = Normal answer /\
    (answer = true ->
     getIndexSegmentEnd (mkSegment 0 4 0) None None <= mul64 7 1 /\
     4 <= timeDiffTS 9000 fourSecondsLive).
Proof.
  apply (shouldRefresh_when 9000 0 7 fourSecondsLive (mkSegment 0 4 0));
    reflexivity.
Defined.

(** X5. [shouldRefresh] returns for every object and every argument: it
    does not throw, it reads the timeline at its last index and nowhere
    else, and only when the timeline is not empty; it answers [false] on a
    static index and [true] on a dynamic index whose timeline is empty
    after the eviction. *)
Theorem shouldRefresh_returns (now _up to : Q)
    (this : TimelineRepresentationIndex) :
  let this' := _refreshTimeline this in
  let result := fst (shouldRefresh now _up to this) in
  exists answer,
    outcome result = Normal answer /\
    Forall (fun i =>
              i = (array_length (timeline (_index this')) - 1)%Z /\
              (0 <= i)%Z)
           (reads result) /\
    (_isDynamic this = false -> answer = false) /\
    (_isDynamic this = true -> timeline (_index this') = [] -> answer = true).
Proof.
  intros this' result. subst result.
  destruct (_refreshTimeline_fields this) as [Hdyn' _].
  unfold shouldRefresh. cbn [fst]. fold this'. fold this' in Hdyn'.
  rewrite Hdyn'.
  destruct (_isDynamic this) eqn:Hdyn; cbn [negb].
  2: { exists false. repeat split; [constructor | discriminate]. }
  destruct (lastEntry (timeline (_index this'))) as [last|] eqn:Hlast.
  - destruct (lastEntry_Some _ _ Hlast) as [Hlen _]. rewrite Hlen.
    pose proof Hlast as Hget. unfold lastEntry in Hget.
    pose proof (array_get_Some_range _ _ _ Hget) as Hrange.
    rewrite (read_deref _ _ _ _ Hget). cbn [outcome reads].
    rewrite (_getTheoriticalLastPosition_dynamic now this' last)
      by congruence.
    destruct (Qlt_bool (mul64 to (timescale (_index this'))) _).
    + exists false. cbn [ret outcome reads].
      repeat split; try discriminate.
      * constructor; [split; [reflexivity | lia] | constructor].
      * intros _ Hempty. rewrite Hempty in Hlast. discriminate.
    + unfold bind. cbn [outcome reads ret]. eexists.
      split; [reflexivity|]. split; [|split]; try discriminate.
      * constructor; [split; [reflexivity | lia]|].
        constructor; [split; [reflexivity | lia] | constructor].
      * intros _ Hempty. rewrite Hempty in Hlast. discriminate.
  - apply lastEntry_None in Hlast. rewrite Hlast. exists true.
    repeat split; [constructor | discriminate].
Qed.

(** ** The first and the last position *)

(** What [getFirstPosition] and [getLastPosition] return. *)
Lemma positions_after_eviction (this : TimelineRepresentationIndex) :
  let this' := _refreshTimeline this in
  match timeline (_index this') with
  | [] =>
    outcome (fst (getFirstPosition this)) = Normal None /\
    outcome (fst (getLastPosition this)) = Normal None
  | first :: _ =>
    outcome (fst (getFirstPosition this))
      = Normal (Some (fromIndexTime (start first) (_index this'))) /\
    exists last,
      lastEntry (timeline (_index this')) = Some last /\
      outcome (fst (getLastPosition this))
        = Normal (Some (fromIndexTime
                          (getIndexSegmentEnd last None
                                              (_scaledPeriodEnd this'))
                          (_index this')))
  end.
Proof.
  intro this'. unfold getFirstPosition, getLastPosition. cbn [fst].
  fold this'.
  destruct (timeline (_index this')) as [|first rest] eqn:Htl.
  - split; reflexivity.
  - split; [reflexivity|].
    destruct (lastEntry (first :: rest)) as [last|] eqn:Hlast;
      [|apply lastEntry_None in Hlast; discriminate].
    exists last. split; [reflexivity|].
    destruct (lastEntry_Some _ _ Hlast) as [Hlen _]. rewrite Hlen.
    unfold lastEntry in Hlast.
    rewrite (outcome_read_deref _ _ _ _ Hlast). reflexivity.
Qed.

Lemma chained_positive (timeline : list IIndexSegment) :
  chained timeline ->
  Forall (fun entry => start entry < entryEnd entry) timeline.
Proof.
  induction timeline as [|entry rest IH]; intro Hch; constructor.
  - apply Hch.
  - apply IH, Hch.
Qed.

Lemma lastEntry_In (timeline : list IIndexSegment) (last : IIndexSegment) :
  lastEntry timeline = Some last -> In last timeline.
Proof.
  unfold lastEntry, array_get. intro H.
  destruct (_ <? 0)%Z; [discriminate|].
  eapply nth_error_In. exact H.
Qed.

Lemma lastEntry_cons (first next : IIndexSegment)
    (rest : list IIndexSegment) :
  lastEntry (first :: next :: rest) = lastEntry (next :: rest).
Proof.
  destruct (@exists_last _ (next :: rest)) as [front [final Hsplit]];
    [discriminate|].
  rewrite Hsplit. unfold lastEntry.
  change (first :: front ++ [final]) with ((first :: front) ++ [final]).
  rewrite !array_get_last. reflexivity.
Qed.

(** The first entry of a chained timeline starts before its last entry
    ends. *)
Lemma chained_first_last (first last : IIndexSegment)
    (rest : list IIndexSegment) :
  chained (first :: rest) ->
  lastEntry (first :: rest) = Some last ->
  start first < entryEnd last.
Proof.
  intros Hch Hlast.
  pose proof (chained_after _ _ Hch) as Hafter.
  pose proof (chained_positive _ Hch) as Hpos.
  destruct rest as [|next rest'].
  - unfold lastEntry in Hlast. cbn in Hlast. injection Hlast as <-.
    apply Hch.
  - rewrite lastEntry_cons in Hlast. apply lastEntry_In in Hlast.
    rewrite Forall_forall in Hafter, Hpos.
    pose proof (Hafter _ Hlast) as Hle.
    pose proof (Hpos last (or_intror Hlast)) as Hlt.
    pose proof (Hpos first (or_introl eq_refl)) as Hfirst.
    simpl in Hle. lra.
Qed.

(** X7. [getFirstPosition] and [getLastPosition] return for every object
    without throwing, and each returns [null] exactly when the timeline is
    empty after the eviction. *)
Theorem positions_returned (this : TimelineRepresentationIndex) :
  exists firstPosition lastPosition,
    outcome (fst (getFirstPosition this)) = Normal firstPosition /\
    outcome (fst (getLastPosition this)) = Normal lastPosition /\
    (firstPosition = None <-> timeline (_index (_refreshTimeline this)) = []) /\
    (lastPosition = None <-> timeline (_index (_refreshTimeline this)) = []).
Proof.
  pose proof (positions_after_eviction this) as Hpositions.
  cbv zeta in Hpositions.
  destruct (timeline (_index (_refreshTimeline this))) as [|first rest].
  - destruct Hpositions as [Hfirst Hlast].
    exists None, None. repeat split; auto.
  - destruct Hpositions as [Hfirst [last [_ Hlast]]].
    do 2 eexists. split; [exact Hfirst|]. split; [exact Hlast|].
    split; split; discriminate.
Qed.

(** X8. When the timeline left by the eviction is not empty, its runs have
    a positive length and follow each other in order, its last entry has a
    concrete duration and the timescale is positive, the first position is
    strictly before the last position. *)
Theorem first_position_before_last (this : TimelineRepresentationIndex)
    (last : IIndexSegment) :
  let this' := _refreshTimeline this in
  chained (timeline (_index this')) ->
  lastEntry (timeline (_index this')) = Some last ->
  ~ duration last == -1 ->
  0 < timescale (_index this) ->
  exists firstPosition lastPosition,
    outcome (fst (getFirstPosition this)) = Normal (Some firstPosition) /\
    outcome (fst (getLastPosition this)) = Normal (Some lastPosition) /\
    firstPosition < lastPosition.
Proof.
  intros this' Hch Hlast Hconcrete Hts.
  destruct (_refreshTimeline_fields this) as [_ [_ [_ [Hts' _]]]].
  fold this' in Hts'.
  pose proof (positions_after_eviction this) as Hpositions.
  cbv zeta in Hpositions. fold this' in Hpositions.
  destruct (timeline (_index this')) as [|first rest] eqn:Htl.
  - unfold lastEntry in Hlast. rewrite array_get_nil in Hlast. discriminate.
  - destruct Hpositions as [Hfirst [last' [Hlast' Hlastpos]]].
    assert (last' = last) by congruence. subst last'.
    do 2 eexists. split; [exact Hfirst|]. split; [exact Hlastpos|].
    pose proof (chained_first_last _ _ _ Hch Hlast) as Hlt.
    assert (Hend : getIndexSegmentEnd last None (_scaledPeriodEnd this')
                   = entryEnd last).
    { unfold getIndexSegmentEnd.
      destruct (Qeq_bool (duration last) (-1)) eqn:E; [|reflexivity].
      apply Qeq_bool_iff in E. contradiction. }
    rewrite Hend. unfold fromIndexTime. rewrite Hts'.
    apply Qmult_lt_compat_r; [apply Qinv_lt_0_compat; exact Hts | lra].
Qed.

Lemma first_position_before_last_witness :
  exists firstPosition lastPosition,
    outcome (fst (getFirstPosition gapAfterTen))
      = Normal (Some firstPosition) /\
    outcome (fst (getLastPosition gapAfterTen)) = Normal (Some lastPosition) /\
    firstPosition < lastPosition.
Proof.
  apply (first_position_before_last gapAfterTen (mkSegment 20 10 0)).
  - cbn. repeat split; vm_compute; congruence.
  - reflexivity.
  - discriminate.
  - reflexivity.
Defined.

(** ** Which [S] elements the normalizer accepts *)

(** X9. [fromParsedSToIndexSegment] drops an [S] element exactly when it is
    not resolvable: its start is declared but not a number, or its duration
    is not a number and the next element declares no start that is one, or
    its repeat count is declared but not a number. Neither the entry
    resolved before nor the start of the timeline matter for it. *)
Theorem fromParsedSToIndexSegment_drops (item : S.t)
    (previousItem : option IIndexSegment) (nextItem : option S.t)
    (timelineStart : Q) :
  fromParsedSToIndexSegment item previousItem nextItem timelineStart = None
  <-> resolvable item nextItem = false.
Proof.
  unfold fromParsedSToIndexSegment, resolvable.
  destruct item as [[[|s]|] [[|r]|] [[|d]|]];
    destruct previousItem as [previous|];
    destruct nextItem as [[[[|s']|] next_r next_d]|];
    cbn; split; intro H; try reflexivity; try discriminate.
Qed.

(** X10. When the duration of an accepted [S] element is not a declared
    number, the next element declares a start that is a number and the
    duration is the difference the code computes, in doubles, between that
    start and the start of the entry. *)
Theorem fromParsedSToIndexSegment_inferred_duration (item : S.t)
    (previousItem : option IIndexSegment) (nextItem : option S.t)
    (timelineStart : Q) (entry : IIndexSegment) :
  fromParsedSToIndexSegment item previousItem nextItem timelineStart
    = Some entry ->
  isKnown (S.duration item) = false ->
  exists next nextStart,
    nextItem = Some next /\
    S.start next = Some (Num nextStart) /\
    duration entry = sub64 nextStart (start entry).
Proof.
  unfold fromParsedSToIndexSegment. intros Hentry Hduration.
  destruct item as [[[|s]|] [[|r]|] [[|d]|]];
    cbn in Hduration; try discriminate;
    destruct previousItem as [previous|];
    destruct nextItem as [[[[|s']|] next_r next_d]|];
    cbn in Hentry; try discriminate;
    injection Hentry as <-;
    eexists; eexists;
    (split; [reflexivity|]); (split; [reflexivity|]);
    reflexivity.
Qed.

Lemma fromParsedSToIndexSegment_inferred_duration_witness :
  exists next nextStart,
    Some fromSeven = Some next /\
    S.start next = Some (Num nextStart) /\
    duration (mkSegment 0 (sub64 7 0) 0) = sub64 nextStart 0.
Proof.
  apply (fromParsedSToIndexSegment_inferred_duration untilSeven None
           (Some fromSeven) 0 (mkSegment 0 (sub64 7 0) 0)); reflexivity.
Defined.

(** ** Timelines of fully declared and of start-less [S] elements *)

Lemma fromParsedSToIndexSegment_fullyDeclared (item : S.t)
    (previousItem : option IIndexSegment) (nextItem : option S.t)
    (timelineStart : Q) :
  fullyDeclared item = true ->
  fromParsedSToIndexSegment item previousItem nextItem timelineStart
    = Some (asDeclared item).
Proof.
  unfold fromParsedSToIndexSegment, fullyDeclared, asDeclared.
  destruct item as [[[|s]|] [[|r]|] [[|d]|]]; cbn; intro H;
    try discriminate;
    destruct nextItem as [[[[|s']|] next_r next_d]|]; reflexivity.
Qed.

Lemma normalizeLoop_fullyDeclared (items : list S.t) (scaledStart : Q) :
  forall timeline,
    forallb fullyDeclared items = true ->
    normalizeLoop items timeline scaledStart
      = timeline ++ map asDeclared items.
Proof.
  induction items as [|item following IH]; intros timeline Hall.
  - simpl. rewrite app_nil_r. reflexivity.
  - cbn [forallb] in Hall. apply andb_true_iff in Hall.
    destruct Hall as [Hitem Hfollowing].
    cbn [normalizeLoop map].
    rewrite (fromParsedSToIndexSegment_fullyDeclared _ _ _ _ Hitem).
    rewrite (IH _ Hfollowing), <- app_assoc. reflexivity.
Qed.

(** X11. When every [S] element declares a start and a duration that are
    numbers (and no repeat count or one that is a number), the constructor
    drops none and stores exactly the declared values, one entry for each
    element, in the order of declaration. *)
Theorem constructor_keeps_declared
    (createIndexURL : string -> option string -> option string -> option Z
                      -> string)
    (now : Q) (index : ITimelineIndexIndexArgument)
    (context : ITimelineIndexContextArgument) :
  forallb fullyDeclared (arg_timeline index) = true ->
  timeline (_index (constructor createIndexURL now index context))
    = map asDeclared (arg_timeline index).
Proof.
  intro Hall. cbn [constructor _index timeline].
  apply (normalizeLoop_fullyDeclared _ _ [] Hall).
Qed.

Lemma constructor_keeps_declared_witness :
  timeline (_index (constructor sampleCreateIndexURL 0 outOfOrder
                                sampleContext))
    = map asDeclared (arg_timeline outOfOrder).
Proof.
  apply (constructor_keeps_declared sampleCreateIndexURL 0 outOfOrder
                                    sampleContext).
  reflexivity.
Defined.

Lemma fromParsedSToIndexSegment_no_start (item : S.t)
    (previousItem : option IIndexSegment) (nextItem : option S.t)
    (timelineStart : Q) :
  S.start item = None ->
  declaresDuration item = true ->
  exists entry,
    fromParsedSToIndexSegment item previousItem nextItem timelineStart
      = Some entry /\
    start entry = match previousItem with
                  | Some previous => entryEnd previous
                  | None => timelineStart
                  end.
Proof.
  unfold fromParsedSToIndexSegment, declaresDuration.
  destruct item as [[[|s]|] [[|r]|] [[|d]|]]; cbn; intros Hstart H;
    try discriminate;
    destruct previousItem as [previous|];
    destruct nextItem as [[[[|s']|] next_r next_d]|];
    eexists; split; reflexivity.
Qed.

Lemma contiguous_app (timeline : list IIndexSegment) (entry : IIndexSegment) :
  contiguous timeline ->
  (forall before, lastEntry timeline = Some before ->
                  start entry = entryEnd before) ->
  contiguous (timeline ++ [entry]).
Proof.
  induction timeline as [|first rest IH]; intros Hco Hlast.
  - simpl. auto.
  - destruct Hco as [Hnext Hrest].
    destruct rest as [|second rest'].
    + simpl. repeat split. apply Hlast. reflexivity.
    + change (contiguous (first :: ((second :: rest') ++ [entry]))).
      split; [exact Hnext|].
      apply IH; [exact Hrest|].
      intros before Hbefore. apply Hlast.
      rewrite lastEntry_cons. exact Hbefore.
Qed.

Lemma normalizeLoop_contiguous (items : list S.t) (scaledStart : Q) :
  forall timeline,
    Forall (fun item => S.start item = None /\ declaresDuration item = true)
           items ->
    contiguous timeline ->
    exists added,
      normalizeLoop items timeline scaledStart = timeline ++ added /\
      List.length added = List.length items /\
      contiguous (timeline ++ added).
Proof.
  induction items as [|item following IH]; intros timeline Hall Hco.
  - exists []. rewrite app_nil_r. auto.
  - inversion Hall as [|x l [Hstart Hduration] Hfollowing]; subst.
    cbn [normalizeLoop]. fold (lastEntry timeline).
    destruct (fromParsedSToIndexSegment_no_start item (lastEntry timeline)
                (hd_error following) scaledStart Hstart Hduration)
      as [entry [Hentry Hfrom]].
    rewrite Hentry.
    destruct (IH (timeline ++ [entry]) Hfollowing) as [added [Hloop [Hlen Hco']]].
    + apply contiguous_app; [exact Hco|].
      intros before Hbefore. rewrite Hbefore in Hfrom. exact Hfrom.
    + exists (entry :: added). rewrite Hloop, <- app_assoc.
      split; [reflexivity|]. split; [simpl; lia|].
      rewrite <- app_assoc in Hco'. exact Hco'.
Qed.

Lemma normalizeLoop_from_first (first : S.t) (following : list S.t)
    (scaledStart : Q) :
  (isNullish (S.start first) || isKnown (S.start first)) = true ->
  declaresDuration first = true ->
  Forall (fun item => S.start item = None /\ declaresDuration item = true)
         following ->
  List.length (normalizeLoop (first :: following) [] scaledStart)
    = List.length (first :: following) /\
  contiguous (normalizeLoop (first :: following) [] scaledStart).
Proof.
  intros Hstart Hduration Hfollowing. cbn [normalizeLoop].
  assert (Hfirst : exists entry,
             fromParsedSToIndexSegment first
               (array_get [] (array_length (@nil IIndexSegment) - 1))
               (hd_error following) scaledStart = Some entry).
  { unfold fromParsedSToIndexSegment, declaresDuration in *.
    destruct first as [[[|s]|] [[|r]|] [[|d]|]]; cbn in *;
      try discriminate;
      destruct (hd_error following) as [[[[|s']|] next_r next_d]|];
      eexists; reflexivity. }
  destruct Hfirst as [entry Hentry]. rewrite Hentry.
  destruct (normalizeLoop_contiguous following scaledStart
              ([] ++ [entry]) Hfollowing)
    as [added [Hloop [Hlen Hco]]]; [simpl; auto|].
  rewrite Hloop. split; [|exact Hco].
  rewrite length_app. simpl. lia.
Qed.

(** X12. When every [S] element declares a duration that is a number (and
    no repeat count or one that is a number) and only the first one may
    declare a start, the constructor drops none, and in the timeline it
    stores every entry after the first starts exactly at the value
    [start + duration * (repeatCount + 1)] the code computes, in doubles,
    from the entry stored before it, whatever the sign of that duration
    and repeat count. *)
Theorem constructor_contiguous
    (createIndexURL : string -> option string -> option string -> option Z
                      -> string)
    (now : Q) (index : ITimelineIndexIndexArgument)
    (context : ITimelineIndexContextArgument)
    (first : S.t) (following : list S.t) :
  arg_timeline index = first :: following ->
  (isNullish (S.start first) || isKnown (S.start first)) = true ->
  declaresDuration first = true ->
  Forall (fun item => S.start item = None /\ declaresDuration item = true)
         following ->
  let timeline :=
    timeline (_index (constructor createIndexURL now index context)) in
  List.length timeline = List.length (arg_timeline index) /\
  contiguous timeline.
Proof.
  intros Hraw Hstart Hduration Hfollowing timeline. subst timeline.
  cbn [constructor _index timeline]. rewrite Hraw.
  apply normalizeLoop_from_first; assumption.
Qed.

Lemma constructor_contiguous_witness :
  let timeline :=
    timeline (_index (constructor sampleCreateIndexURL 0 threeThenOne
                                  sampleContext)) in
  List.length timeline = List.length (arg_timeline threeThenOne) /\
  contiguous timeline.
Proof.
  apply (constructor_contiguous sampleCreateIndexURL 0 threeThenOne
           sampleContext
           (S.mk (Some (Num 0)) (Some (Num 2)) (Some (Num 10)))
           [S.mk None None (Some (Num 5))]);
    try reflexivity.
  constructor; [split; reflexivity | constructor].
Defined.

(** ** The parser of [ContentProtection] elements *)

Section ContentProtectionFacts.

Variable Uint8Array : Type.
Variable base64ToUint8Array : string -> option Uint8Array.
Variable hexToBytes : string -> option Uint8Array.

Lemma parseContentProtectionChildren_loop_acc (nodes : list Node) :
  forall cencPssh,
    parseContentProtectionChildren_loop Uint8Array base64ToUint8Array
      nodes cencPssh
    = match parseContentProtectionChildren_loop Uint8Array
              base64ToUint8Array nodes [] with
      | Some found => Some (cencPssh ++ found)
      | None => None
      end.
Proof.
  induction nodes as [|node rest IH]; intro acc; cbn.
  - rewrite app_nil_r. reflexivity.
  - destruct (nodeType node =? ELEMENT_NODE)%Z; [|apply IH].
    destruct (String.eqb (nodeName node) "cenc:pssh"); [|apply IH].
    destruct (textContent node) as [content|]; [|apply IH].
    destruct (Z.of_nat (String.length content) >? 0)%Z; [|apply IH].
    destruct (base64ToUint8Array content) as [bytes|]; [|reflexivity].
    rewrite (IH (acc ++ [bytes])), (IH [bytes]).
    destruct (parseContentProtectionChildren_loop _ _ rest []);
      [|reflexivity].
    rewrite <- app_assoc. reflexivity.
Qed.

Lemma parseContentProtectionChildren_loop_app (front back : list Node) :
  forall cencPssh,
    parseContentProtectionChildren_loop Uint8Array base64ToUint8Array
      (front ++ back) cencPssh
    = match parseContentProtectionChildren_loop Uint8Array
              base64ToUint8Array front cencPssh with
      | Some found =>
        parseContentProtectionChildren_loop Uint8Array base64ToUint8Array
          back found
      | None => None
      end.
Proof.
  induction front as [|node rest IH]; intro acc; cbn; [reflexivity|].
  destruct (nodeType node =? ELEMENT_NODE)%Z; [|apply IH].
  destruct (String.eqb (nodeName node) "cenc:pssh"); [|apply IH].
  destruct (textContent node) as [content|]; [|apply IH].
  destruct (Z.of_nat (String.length content) >? 0)%Z; [|apply IH].
  destruct (base64ToUint8Array content) as [bytes|]; [|reflexivity].
  apply IH.
Qed.

(** X14. Parsing the children of a list of nodes split in two gives the
    data of the first part followed by the data of the second part, and
    fails exactly when parsing one of the parts fails. *)
Theorem parseContentProtectionChildren_app (front back : list Node) :
  parseContentProtectionChildren Uint8Array base64ToUint8Array
    (front ++ back)
  = match parseContentProtectionChildren Uint8Array base64ToUint8Array front,
          parseContentProtectionChildren Uint8Array base64ToUint8Array back
    with
    | Some first, Some second =>
      Some {| cencPssh := cencPssh first ++ cencPssh second |}
    | _, _ => None
    end.
Proof.
  unfold parseContentProtectionChildren.
  rewrite parseContentProtectionChildren_loop_app.
  destruct (parseContentProtectionChildren_loop _ _ front [])
    as [found|]; [|reflexivity].
  rewrite parseContentProtectionChildren_loop_acc.
  destruct (parseContentProtectionChildren_loop _ _ back []); reflexivity.
Qed.

Lemma parseContentProtectionChildren_loop_decodes (nodes : list Node) :
  match parseContentProtectionChildren_loop Uint8Array base64ToUint8Array
          nodes [] with
  | Some found =>
    Forall2 (fun content bytes => base64ToUint8Array content = Some bytes)
            (psshContents nodes) found
  | None =>
    Exists (fun content => base64ToUint8Array content = None)
           (psshContents nodes)
  end.
Proof.
  induction nodes as [|node rest IH]; cbn; [constructor|].
  unfold psshContent.
  destruct (nodeType node =? ELEMENT_NODE)%Z; [|exact IH].
  destruct (String.eqb (nodeName node) "cenc:pssh"); [|exact IH].
  destruct (textContent node) as [content|]; [|exact IH].
  destruct (Z.of_nat (String.length content) >? 0)%Z; [|exact IH].
  destruct (base64ToUint8Array content) as [bytes|] eqn:Hdecode.
  - rewrite parseContentProtectionChildren_loop_acc.
    destruct (parseContentProtectionChildren_loop _ _ rest []).
    + constructor; assumption.
    + apply Exists_cons_tl. exact IH.
  - apply Exists_cons_hd. exact Hdecode.
Qed.

(** X15. The data [parseContentProtectionChildren] returns are the decoded
    texts of the child elements named [cenc:pssh] whose text is not empty,
    one for each and in their order; nodes that are not elements, elements
    of another name and elements without text give nothing. The parse
    fails only when decoding one of these texts fails. *)
Theorem parseContentProtectionChildren_decodes (nodes : list Node) :
  match parseContentProtectionChildren Uint8Array base64ToUint8Array nodes
  with
  | Some parsed =>
    Forall2 (fun content bytes => base64ToUint8Array content = Some bytes)
            (psshContents nodes) (cencPssh parsed)
  | None =>
    Exists (fun content => base64ToUint8Array content = None)
           (psshContents nodes)
  end.
Proof.
  unfold parseContentProtectionChildren.
  pose proof (parseContentProtectionChildren_loop_decodes nodes) as H.
  destruct (parseContentProtectionChildren_loop _ _ nodes []); exact H.
Qed.

Lemma parseContentProtectionAttributes_loop_last (attrs : list Attr) :
  forall scheme val key parsed,
    parseContentProtectionAttributes_loop Uint8Array hexToBytes attrs
      scheme val key = Some parsed ->
    schemeIdUri parsed = match lastNamed "schemeIdUri" attrs with
                         | Some v => Some v
                         | None => scheme
                         end /\
    value parsed = match lastNamed "value" attrs with
                   | Some v => Some v
                   | None => val
                   end /\
    keyId parsed = match lastNamed "cenc:default_KID" attrs with
                   | Some v => hexToBytes (removeDashes v)
                   | None => key
                   end.
Proof.
  induction attrs as [|[name v] rest IH]; intros scheme val key parsed H.
  - injection H as <-. cbn. auto.
  - cbn in H |- *.
    destruct (String.eqb name "schemeIdUri") eqn:Escheme.
    { apply String.eqb_eq in Escheme. subst name. cbn.
      destruct (IH _ _ _ _ H) as [H1 [H2 H3]].
      rewrite H1, H2, H3.
      destruct (lastNamed "schemeIdUri" rest),
               (lastNamed "value" rest),
               (lastNamed "cenc:default_KID" rest); auto. }
    destruct (String.eqb name "value") eqn:Evalue.
    { apply String.eqb_eq in Evalue. subst name. cbn.
      destruct (IH _ _ _ _ H) as [H1 [H2 H3]].
      rewrite H1, H2, H3.
      destruct (lastNamed "schemeIdUri" rest),
               (lastNamed "value" rest),
               (lastNamed "cenc:default_KID" rest); auto. }
    destruct (String.eqb name "cenc:default_KID") eqn:Ekid.
    { apply String.eqb_eq in Ekid. subst name. cbn.
      destruct (hexToBytes (removeDashes v)) as [bytes|] eqn:Hhex;
        [|discriminate].
      destruct (IH _ _ _ _ H) as [H1 [H2 H3]].
      rewrite H1, H2, H3.
      destruct (lastNamed "schemeIdUri" rest),
               (lastNamed "value" rest),
               (lastNamed "cenc:default_KID" rest); auto. }
    destruct (IH _ _ _ _ H) as [H1 [H2 H3]].
    rewrite H1, H2, H3.
    destruct (lastNamed "schemeIdUri" rest),
             (lastNamed "value" rest),
             (lastNamed "cenc:default_KID" rest); auto.
Qed.

(** X16. When [parseContentProtectionAttributes] returns, [schemeIdUri]
    and [value] are the values of the last attributes of these names, and
    [keyId] is [hexToBytes] of the value of the last [cenc:default_KID]
    attribute with its dashes removed; each is [undefined] when the element
    has no attribute of the name. *)
Theorem parseContentProtectionAttributes_last (root : Element)
    (parsed : ContentProtectionAttributes Uint8Array) :
  parseContentProtectionAttributes Uint8Array hexToBytes root = Some parsed ->
  schemeIdUri parsed = lastNamed "schemeIdUri" (attributes root) /\
  value parsed = lastNamed "value" (attributes root) /\
  keyId parsed = match lastNamed "cenc:default_KID" (attributes root) with
                 | Some kid => hexToBytes (removeDashes kid)
                 | None => None
                 end.
Proof.
  intro H. unfold parseContentProtectionAttributes in H.
  destruct (parseContentProtectionAttributes_loop_last _ _ _ _ _ H)
    as [H1 [H2 H3]].
  rewrite H1, H2, H3.
  destruct (lastNamed "schemeIdUri" (attributes root)),
           (lastNamed "value" (attributes root)),
           (lastNamed "cenc:default_KID" (attributes root)); auto.
Qed.

Lemma parseContentProtectionAttributes_loop_read (attrs : list Attr) :
  forall scheme val key,
    parseContentProtectionAttributes_loop Uint8Array hexToBytes
      (filter isRead attrs) scheme val key
    = parseContentProtectionAttributes_loop Uint8Array hexToBytes
        attrs scheme val key.
Proof.
  induction attrs as [|[name v] rest IH]; intros scheme val key;
    [reflexivity|].
  cbn. unfold isRead. cbn.
  destruct (String.eqb name "schemeIdUri") eqn:Escheme; cbn.
  { rewrite Escheme. apply IH. }
  destruct (String.eqb name "value") eqn:Evalue; cbn.
  { rewrite Escheme, Evalue. apply IH. }
  destruct (String.eqb name "cenc:default_KID") eqn:Ekid; cbn.
  { rewrite Escheme, Evalue, Ekid.
    destruct (hexToBytes (removeDashes v)); [apply IH | reflexivity]. }
  apply IH.
Qed.

(** X17. Attributes of other names than [schemeIdUri], [value] and
    [cenc:default_KID] are not read: an element gives the same result with
    and without them. *)
Theorem parseContentProtectionAttributes_ignores (root : Element) :
  parseContentProtectionAttributes Uint8Array hexToBytes
    {| attributes := filter isRead (attributes root);
       childNodes := childNodes root |}
  = parseContentProtectionAttributes Uint8Array hexToBytes root.
Proof.
  unfold parseContentProtectionAttributes. cbn [attributes].
  apply parseContentProtectionAttributes_loop_read.
Qed.

Lemma removeDashes_idempotent (s : string) :
  removeDashes (removeDashes s) = removeDashes s.
Proof.
  induction s as [|c rest IH]; [reflexivity|]. cbn.
  destruct (Ascii.eqb c "-") eqn:E; [exact IH|].
  cbn. rewrite E, IH. reflexivity.
Qed.

Lemma parseContentProtectionAttributes_loop_dashes (attrs : list Attr) :
  forall scheme val key,
    parseContentProtectionAttributes_loop Uint8Array hexToBytes
      (map withoutDashes attrs) scheme val key
    = parseContentProtectionAttributes_loop Uint8Array hexToBytes
        attrs scheme val key.
Proof.
  induction attrs as [|[name v] rest IH]; intros scheme val key;
    [reflexivity|].
  cbn. unfold withoutDashes. cbn.
  destruct (String.eqb name "cenc:default_KID") eqn:Ekid; cbn.
  - apply String.eqb_eq in Ekid. subst name. cbn.
    rewrite removeDashes_idempotent.
    destruct (hexToBytes (removeDashes v)); [apply IH | reflexivity].
  - rewrite Ekid.
    destruct (String.eqb name "schemeIdUri"); [apply IH|].
    destruct (String.eqb name "value"); apply IH.
Qed.

(** X18. The dashes of a [cenc:default_KID] do not count: an element gives
    the same result when the dashes are taken out of the values of its
    [cenc:default_KID] attributes beforehand. *)
Theorem parseContentProtectionAttributes_dashes (root : Element) :
  parseContentProtectionAttributes Uint8Array hexToBytes
    {| attributes := map withoutDashes (attributes root);
       childNodes := childNodes root |}
  = parseContentProtectionAttributes Uint8Array hexToBytes root.
Proof.
  unfold parseContentProtectionAttributes. cbn [attributes].
  apply parseContentProtectionAttributes_loop_dashes.
Qed.

End ContentProtectionFacts.

Lemma parseContentProtectionAttributes_last_witness :
  let parsed :=
    {| schemeIdUri := Some "urn:uuid:edef8ba9-79d6-4ace-a3c8-27dcd51d21ed"%string;
       value := None;
       keyId := Some "10000000100010001000100000000001"%string |} in
  schemeIdUri parsed = lastNamed "schemeIdUri" (attributes sampleProtection) /\
  value parsed = lastNamed "value" (attributes sampleProtection) /\
  keyId parsed =
    match lastNamed "cenc:default_KID" (attributes sampleProtection) with
    | Some kid => sampleHexToBytes (removeDashes kid)
    | None => None
    end.
Proof.
  apply (parseContentProtectionAttributes_last string sampleHexToBytes
           sampleProtection).
  reflexivity.
Defined.

Lemma getSegmentIndex_greatest_before_witness :
  exists result,
    outcome (getSegmentIndex contiguousThree 15) = Normal result /\
    inRange (array_length (timeline contiguousThree))
            (reads (getSegmentIndex contiguousThree 15)) /\
    (0 <= result)%Z /\
    (result < array_length (timeline contiguousThree) \/
     timeline contiguousThree = [] /\ result = 0)%Z /\
    (forall entry, (0 < result)%Z ->
                   array_get (timeline contiguousThree) result = Some entry ->
                   start entry < 15) /\
    (forall j entry, (result < j)%Z ->
                     array_get (timeline contiguousThree) j = Some entry ->
                     15 <= start entry) /\
    ((forall entry, In entry (timeline contiguousThree) -> 15 <= start entry) ->
     result = 0%Z).
Proof.
  apply (getSegmentIndex_greatest_before contiguousThree 15).
  - repeat constructor.
  - discriminate.
Defined.

(** ** Operations while the minimum bound is unknown *)

(** X19. While the bounds calculator does not know the minimum bound, no
    operation evicts anything: [getSegments], [shouldRefresh],
    [getFirstPosition], [getLastPosition], [checkDiscontinuity] and
    [isSegmentStillAvailable] all leave the object exactly as it was. *)
Theorem operations_without_bound
    (getSegmentsFromTimeline :
       ITimelineIndex -> Q -> Q -> option Q -> list ISegment)
    (is_segment_still_available :
       ISegment -> list IIndexSegment -> Q -> Q -> option bool)
    (now : Q) (this : TimelineRepresentationIndex) :
  getMinimumBound (_manifestBoundsCalculator this) = None ->
  (forall from duration_,
     snd (getSegments getSegmentsFromTimeline from duration_ this) = this) /\
  (forall _up to, snd (shouldRefresh now _up to this) = this) /\
  snd (getFirstPosition this) = this /\
  snd (getLastPosition this) = this /\
  (forall _time, snd (checkDiscontinuity _time this) = this) /\
  (forall segment,
     snd (isSegmentStillAvailable is_segment_still_available segment this)
     = this).
Proof.
  intro Hunknown.
  assert (Hsame : _refreshTimeline this = this)
    by (unfold _refreshTimeline; rewrite Hunknown; reflexivity).
  unfold getSegments, shouldRefresh, getFirstPosition, getLastPosition,
    checkDiscontinuity, isSegmentStillAvailable.
  repeat split; intros; cbn [snd]; try exact Hsame.
  destruct (isInit segment); cbn [snd]; [reflexivity | exact Hsame].
Qed.

Lemma operations_without_bound_witness :
  snd (getFirstPosition gapAfterTen) = gapAfterTen /\
  snd (getLastPosition gapAfterTen) = gapAfterTen.
Proof.
  destruct (operations_without_bound
              (fun _ _ _ _ => []) (fun _ _ _ _ => None) 0 gapAfterTen)
    as [_ [_ [Hfirst [Hlast _]]]];
    [reflexivity|].
  split; assumption.
Defined.

(** ** An index built from [S] elements without starts *)

Lemma contiguous_nth (timeline : list IIndexSegment) :
  contiguous timeline ->
  forall (n : nat) (entry next : IIndexSegment),
    nth_error timeline n = Some entry ->
    nth_error timeline (Datatypes.S n) = Some next ->
    start next = entryEnd entry.
Proof.
  induction timeline as [|first rest IH]; intros Hco n entry next He Hn.
  - destruct n; discriminate.
  - destruct Hco as [Hnext Hrest]. destruct n as [|n'].
    + cbn in He, Hn. injection He as <-.
      destruct rest as [|second rest']; [discriminate|].
      cbn in Hn. injection Hn as <-. exact Hnext.
    + cbn in He, Hn. apply (IH Hrest n'); assumption.
Qed.

Lemma contiguous_gapless (timeline : list IIndexSegment)
    (scaledPeriodEnd : option Q) :
  contiguous timeline -> gapless timeline scaledPeriodEnd.
Proof.
  intros Hco i entry next Hentry Hnext.
  pose proof (array_get_Some_range _ _ _ Hentry) as Hrange.
  unfold array_get in Hentry, Hnext.
  destruct (i <? 0)%Z eqn:Ei; [discriminate|].
  destruct (i + 1 <? 0)%Z eqn:Ei'; [discriminate|].
  replace (Z.to_nat (i + 1)) with (Datatypes.S (Z.to_nat i)) in Hnext by lia.
  pose proof (contiguous_nth _ Hco _ _ _ Hentry Hnext) as Hstart.
  unfold getIndexSegmentEnd.
  destruct (Qeq_bool (duration entry) (-1)); [apply Qle_refl|].
  fold (entryEnd entry). rewrite Hstart. apply Qle_refl.
Qed.

(** X20. An index built from at most 2^31 [S] elements that declare their
    durations and of which only the first may declare a start never reports
    a discontinuity while the minimum bound is unknown: on the object the
    constructor builds, [checkDiscontinuity] returns -1 for every time. *)
Theorem constructor_without_starts_no_discontinuity
    (createIndexURL : string -> option string -> option string -> option Z
                      -> string)
    (now : Q) (index : ITimelineIndexIndexArgument)
    (context : ITimelineIndexContextArgument)
    (first : S.t) (following : list S.t) (_time : Q) :
  arg_timeline index = first :: following ->
  (isNullish (S.start first) || isKnown (S.start first)) = true ->
  declaresDuration first = true ->
  Forall (fun item => S.start item = None /\ declaresDuration item = true)
         following ->
  (array_length (arg_timeline index) <= 2 ^ 31)%Z ->
  getMinimumBound (ctx_manifestBoundsCalculator context) = None ->
  outcome (fst (checkDiscontinuity _time
                  (constructor createIndexURL now index context)))
    = Normal (-1).
Proof.
  intros Hraw Hstart Hduration Hfollowing Hmax Hunknown.
  set (this := constructor createIndexURL now index context).
  assert (Hsame : _refreshTimeline this = this).
  { unfold _refreshTimeline. subst this.
    cbn [constructor _manifestBoundsCalculator]. rewrite Hunknown.
    reflexivity. }
  assert (Htimeline : timeline (_index this)
                      = normalizeLoop (first :: following) []
                          (mul64 (ctx_periodStart context) (arg_timescale index))).
  { subst this. cbn [constructor _index timeline]. rewrite Hraw.
    reflexivity. }
  destruct (normalizeLoop_from_first first following
              (mul64 (ctx_periodStart context) (arg_timescale index))
              Hstart Hduration Hfollowing) as [Hlen Hco].
  rewrite <- Htimeline in Hlen, Hco.
  assert (Hmax' : (array_length (timeline (_index this)) <= 2 ^ 31)%Z).
  { unfold array_length in *. rewrite Hlen, <- Hraw. exact Hmax. }
  destruct (checkDiscontinuity_cases _time this Hmax') as [_ Hcases].
  rewrite Hsame in Hcases.
  destruct Hcases as [Hnone | [i [entry [next [Hentry [Hnext [Hgap _]]]]]]].
  - exact Hnone.
  - exfalso. apply (Qlt_not_le _ _ Hgap).
    apply (contiguous_gapless _ (_scaledPeriodEnd this) Hco i);
      assumption.
Qed.

Lemma constructor_without_starts_no_discontinuity_witness :
  outcome (fst (checkDiscontinuity 30
                  (constructor sampleCreateIndexURL 0 threeThenOne
                               sampleContext)))
    = Normal (-1).
Proof.
  apply (constructor_without_starts_no_discontinuity sampleCreateIndexURL 0
           threeThenOne sampleContext
           (S.mk (Some (Num 0)) (Some (Num 2)) (Some (Num 10)))
           [S.mk None None (Some (Num 5))] 30);
    try reflexivity.
  - constructor; [split; reflexivity | constructor].
  - discriminate.
Defined.
